(** * wordplay: the segment model and the selection reconciler

    A shallow embedding of [config.tsx], [types.tsx] and the state-changing
    part of [ClueHighlighter.tsx] (the closures [addOrUpdateSegment],
    [updateResolution], [updateWordplayType] and the derived [summary]),
    followed by the properties the specification states about them.

    Conventions of the embedding:
    - a JavaScript string is the list of its UTF-16 code units ([N]);
    - a JavaScript integer (a character index) is a [Z];
    - the record [segmentBehaviors], which the code indexes by a string
      key, is a finite map; a key that is absent makes the lookup yield
      [undefined] (or a member inherited from [Object.prototype], which has
      no [getDefaultResolution]), and the call on it that follows throws:
      the embedding returns [None] where the code throws;
    - [String.prototype.toUpperCase] and [crypto.randomUUID] belong to the
      host: the first is a parameter of the development, the second is an
      extra argument holding the identifier the host hands out. *)

From Stdlib Require Import ZArith Lia Ascii String.
From stdpp Require Import base option list gmap sorting.

Local Open Scope Z_scope.

(** ** JavaScript strings *)

Abbreviation jsstring := (list N).

(** A string literal of the source made of ASCII characters only. *)
Definition js (s : string) : jsstring :=
  N_of_ascii <$> list_ascii_of_string s.

(** The code units matched by the regular expression class [\s]
    (ECMAScript WhiteSpace and LineTerminator). *)
Definition isWhiteSpace (c : N) : bool :=
  ((9 <=? c) && (c <=? 13) || (c =? 32) || (c =? 160) || (c =? 5760)
   || (8192 <=? c) && (c <=? 8202) || (c =? 8232) || (c =? 8233)
   || (c =? 8239) || (c =? 8287) || (c =? 12288) || (c =? 65279))%N.

(** [t.replace(/\s/g, "")] *)
Definition removeWhiteSpace (t : jsstring) : jsstring :=
  filter (λ c, isWhiteSpace c = false) t.

(** [t.split(/\s+/)]: the pieces of [t] between maximal runs of white space.
    A run at the very beginning or at the very end of [t] leaves an empty
    piece there, and the empty string splits into one empty piece.  [cur]
    is the piece being read, [inRun] tells whether the previous code unit
    was white space. *)
Fixpoint splitRuns (cur : jsstring) (inRun : bool) (t : jsstring)
  : list jsstring :=
  match t with
  | [] => [cur]
  | c :: t' =>
      if isWhiteSpace c
      then (if inRun then splitRuns cur true t'
            else cur :: splitRuns [] true t')
      else splitRuns (cur ++ [c]) false t'
  end.

Definition splitWhiteSpace (t : jsstring) : list jsstring :=
  splitRuns [] false t.

(** [word[0] || ""] *)
Definition firstOrEmpty (word : jsstring) : jsstring := take 1 word.

(** [a.join(sep)] *)
Fixpoint join (sep : jsstring) (a : list jsstring) : jsstring :=
  match a with
  | [] => []
  | [x] => x
  | x :: a' => x ++ sep ++ join sep a'
  end.

(** [t.split("")] : one string per code unit. *)
Definition splitUnits (t : jsstring) : list jsstring := (λ c, [c]) <$> t.

(** [t.slice(from, to)] with the clamping of negative and oversized
    arguments that [String.prototype.slice] performs. *)
Definition slice (t : jsstring) (from to : Z) : jsstring :=
  let len := Z.of_nat (length t) in
  let k := if from <? 0 then Z.max (len + from) 0 else Z.min from len in
  let final := if to <? 0 then Z.max (len + to) 0 else Z.min to len in
  take (Z.to_nat (final - k)) (drop (Z.to_nat k) t).

(** ASCII upper-casing of one code unit, the part of
    [toUpperCase] that the Unicode tables fix for code units below 128. *)
Definition upperAscii (c : N) : N :=
  if ((97 <=? c) && (c <=? 122))%N then (c - 32)%N else c.

Definition isAscii (c : N) : Prop := (c < 128)%N.

(** ** types.tsx *)

Record SegmentBehavior := {
  getDefaultResolution : jsstring → jsstring;
  showResolutionInput : bool;
  resolutionEditable : bool;
  showWordplaySelector : bool
}.

Record Mode := {
  mode_key : jsstring;
  mode_name : jsstring;
  mode_style : jsstring;
  selectedStyle : option jsstring;
  behaviorKey : jsstring
}.

Record WordplayType := {
  wp_key : jsstring;
  wp_name : jsstring;
  wp_symbol : jsstring
}.

Record Segment := {
  seg_id : jsstring;
  seg_start : Z;
  seg_end : Z;
  seg_text : jsstring;
  seg_mode : Mode;
  seg_resolution : jsstring;
  seg_wordplayType : option WordplayType
}.

Global Instance Mode_eq_dec : EqDecision Mode.
Proof. solve_decision. Defined.
Global Instance WordplayType_eq_dec : EqDecision WordplayType.
Proof. solve_decision. Defined.
Global Instance Segment_eq_dec : EqDecision Segment.
Proof. solve_decision. Defined.

(** ** config.tsx *)

Module Config.
Section Behaviors.
(** [String.prototype.toUpperCase] of the host. *)
Variable toUpperCase : jsstring → jsstring.

Definition fodder : SegmentBehavior := {|
  getDefaultResolution := λ text,
    join [] (splitUnits (toUpperCase (removeWhiteSpace text)));
  showResolutionInput := true;
  resolutionEditable := false;
  showWordplaySelector := false
|}.

Definition synonym : SegmentBehavior := {|
  getDefaultResolution := λ _, [];
  showResolutionInput := true;
  resolutionEditable := true;
  showWordplaySelector := false
|}.

Definition abbreviation : SegmentBehavior := {|
  getDefaultResolution := λ text,
    toUpperCase (join [] (firstOrEmpty <$> splitWhiteSpace text));
  showResolutionInput := true;
  resolutionEditable := true;
  showWordplaySelector := false
|}.

Definition wordplayIndicator : SegmentBehavior := {|
  getDefaultResolution := λ _, [];
  showResolutionInput := false;
  resolutionEditable := false;
  showWordplaySelector := true
|}.

Definition definition : SegmentBehavior := {|
  getDefaultResolution := λ _, [];
  showResolutionInput := true;
  resolutionEditable := true;
  showWordplaySelector := false
|}.

Definition clear : SegmentBehavior := {|
  getDefaultResolution := λ _, [];
  showResolutionInput := false;
  resolutionEditable := false;
  showWordplaySelector := false
|}.

Definition segmentBehaviors : gmap jsstring SegmentBehavior :=
  list_to_map [
    (js "fodder", fodder);
    (js "synonym", synonym);
    (js "abbreviation", abbreviation);
    (js "wordplayIndicator", wordplayIndicator);
    (js "definition", definition);
    (js "clear", clear)
  ].
End Behaviors.

Definition mkMode (k n st : string) (sel : option string) (b : string)
  : Mode :=
  {| mode_key := js k; mode_name := js n; mode_style := js st;
     selectedStyle := js <$> sel; behaviorKey := js b |}.

Definition modes : list Mode := [
  mkMode "-" "Clear" "" None "clear";
  mkMode "f" "Fodder" "text-yellow-500" None "fodder";
  mkMode "w" "Wordplay Indicator" "text-pink-500" None "wordplayIndicator";
  mkMode "s" "Synonym" "text-green-500" (Some "bg-green-500/10") "synonym";
  mkMode "a" "Abbreviation" "text-green-700" None "abbreviation";
  mkMode "d" "Definition" "text-red-500" None "definition"
]%string.

Definition mkWordplayType (k n : string) (sym : N) : WordplayType :=
  {| wp_key := js k; wp_name := js n; wp_symbol := [sym] |}.

Definition wordplayTypes : list WordplayType := [
  mkWordplayType "anag" "Anagram" 10227;
  mkWordplayType "rev" "Reversal" 8592;
  mkWordplayType "cont" "Container" 8834;
  mkWordplayType "hid" "Hidden" 8230;
  mkWordplayType "del" "Deletion" 9986;
  mkWordplayType "first" "First letter" 8593;
  mkWordplayType "last" "Last letter" 8595;
  mkWordplayType "homo" "Homophone" 9834;
  mkWordplayType "other" "Other wordplay" 63
]%string.
End Config.

(** ** ClueHighlighter.tsx *)

(** [a.findIndex(p)]: the index of the first element satisfying [p],
    or [-1]. *)
Definition findIndex {A} (P : A → Prop) `{∀ x, Decision (P x)}
  (a : list A) : Z :=
  match list_find P a with
  | Some (i, _) => Z.of_nat i
  | None => -1
  end.

(** [a.sort(cmp)]: the sort of an array is stable, and an element [x]
    goes before [y] when [cmp x y] is negative.  Insertion from the right
    realises it: the head of the list, which comes first in the input,
    is put in front of the elements it compares equal to. *)
Fixpoint insertBy {A} (cmp : A → A → Z) (x : A) (l : list A) : list A :=
  match l with
  | [] => [x]
  | y :: l' => if decide (cmp x y ≤ 0) then x :: y :: l'
               else y :: insertBy cmp x l'
  end.

Fixpoint sortBy {A} (cmp : A → A → Z) (l : list A) : list A :=
  match l with
  | [] => []
  | x :: l' => insertBy cmp x (sortBy cmp l')
  end.

(** The separator of the summary: a space, U+2192 and a space. *)
Definition arrow : jsstring := [32; 8594; 32]%N.

Module ClueHighlighter.
Section Component.
Variable toUpperCase : jsstring → jsstring.

(** The props [text] and [segments], and the state [currentMode]. *)
Variable text : jsstring.
Variable segments : list Segment.
Variable currentMode : Mode.

(** The value of the call to [crypto.randomUUID()]. *)
Variable uuid : jsstring.

(** The result is the argument of the one call of [onSegmentsChange],
    and [None] when the function throws before it. *)
Definition addOrUpdateSegment (start end_ : Z) : option (list Segment) :=
  if decide (behaviorKey currentMode = js "clear") then
    Some (filter (λ s, seg_end s < start ∨ seg_start s > end_) segments)
  else
    let segmentText := slice text start (end_ + 1) in
    behavior ← Config.segmentBehaviors toUpperCase !! behaviorKey currentMode;
    let defaultResolution := getDefaultResolution behavior segmentText in
    let existingIndex :=
      findIndex (λ s, seg_start s = start ∧ seg_end s = end_) segments in
    if decide (0 ≤ existingIndex) then
      Some (imap (λ i s,
              if decide (Z.of_nat i = existingIndex) then
                {| seg_id := seg_id s;
                   seg_start := seg_start s;
                   seg_end := seg_end s;
                   seg_text := seg_text s;
                   seg_mode := currentMode;
                   seg_resolution :=
                     getDefaultResolution behavior (seg_text s);
                   seg_wordplayType := seg_wordplayType s |}
              else s) segments)
    else
      Some (filter (λ s, seg_end s < start ∨ seg_start s > end_) segments
            ++ [ {| seg_id := uuid;
                    seg_start := start;
                    seg_end := end_;
                    seg_text := segmentText;
                    seg_mode := currentMode;
                    seg_resolution := defaultResolution;
                    seg_wordplayType := None |} ]).

Definition updateResolution (id resolution : jsstring) : list Segment :=
  (λ s, if decide (seg_id s = id) then
          {| seg_id := seg_id s;
             seg_start := seg_start s;
             seg_end := seg_end s;
             seg_text := seg_text s;
             seg_mode := seg_mode s;
             seg_resolution := resolution;
             seg_wordplayType := seg_wordplayType s |}
        else s) <$> segments.

Definition updateWordplayType (id : jsstring)
  (wordplayType : option WordplayType) : list Segment :=
  (λ s, if decide (seg_id s = id) then
          {| seg_id := seg_id s;
             seg_start := seg_start s;
             seg_end := seg_end s;
             seg_text := seg_text s;
             seg_mode := seg_mode s;
             seg_resolution := seg_resolution s;
             seg_wordplayType := wordplayType |}
        else s) <$> segments.

(** The filter of [summary]: a non-empty string and an object are the
    truthy values here. *)
Definition summaryKeeps (s : Segment) : Prop :=
  seg_resolution s ≠ [] ∨ is_Some (seg_wordplayType s).

Definition summaryLabel (s : Segment) : jsstring :=
  match seg_wordplayType s with
  | Some w => wp_name w
  | None => seg_resolution s
  end.

Definition summary : jsstring :=
  join arrow
    (summaryLabel <$>
       sortBy (λ a b, seg_start a - seg_start b)
         (filter summaryKeeps segments)).
End Component.
End ClueHighlighter.

Import ClueHighlighter.

(** ** The vocabulary of the specification *)

(** [isOverlapping(a, b)] of the specification, on inclusive ranges given
    as pairs [(start, end)]. *)
Definition isOverlapping (a b : Z * Z) : bool :=
  (a.1 <=? b.2) && (b.1 <=? a.2).

Definition range (s : Segment) : Z * Z := (seg_start s, seg_end s).

(** No two segments of the collection have overlapping ranges. *)
Fixpoint nonOverlapping (l : list Segment) : bool :=
  match l with
  | [] => true
  | s :: l' =>
      forallb (λ t, negb (isOverlapping (range s) (range t))) l'
      && nonOverlapping l'
  end.

(** [defaultResolution(mode, spanText)] of the specification: the lookup of
    the behavior descriptor and the call of its function, as
    [addOrUpdateSegment] performs them. *)
Definition defaultResolution (toUpperCase : jsstring → jsstring)
  (mode : Mode) (spanText : jsstring) : option jsstring :=
  behavior ← Config.segmentBehaviors toUpperCase !! behaviorKey mode;
  Some (getDefaultResolution behavior spanText).


(** The first code unit of every white-space-delimited word, in the words
    of the specification: a code unit that is not white space and that
    starts the text or follows a white-space code unit.  [atStart] tells
    whether the next code unit would start a word. *)
Fixpoint wordInitialsFrom (atStart : bool) (t : jsstring) : jsstring :=
  match t with
  | [] => []
  | c :: t' =>
      if isWhiteSpace c then wordInitialsFrom true t'
      else (if atStart then [c] else []) ++ wordInitialsFrom false t'
  end.

Definition wordInitials (t : jsstring) : jsstring := wordInitialsFrom true t.

(** [s] with the mode and the resolution replaced: the object spread of
    the re-selection branch. *)
Definition retagged (m : Mode) (r : jsstring) (s : Segment) : Segment :=
  {| seg_id := seg_id s; seg_start := seg_start s; seg_end := seg_end s;
     seg_text := seg_text s; seg_mode := m; seg_resolution := r;
     seg_wordplayType := seg_wordplayType s |}.

(** ** Sample data *)

Module Sample.
(** A host whose [toUpperCase] is the ASCII one on every code unit. *)
Definition toUpperCase : jsstring → jsstring := fmap upperAscii.

Definition clue : jsstring := js "A lot to change".

Definition clearMode : Mode :=
  Config.mkMode "-" "Clear" "" None "clear".
Definition fodderMode : Mode :=
  Config.mkMode "f" "Fodder" "text-yellow-500" None "fodder".
Definition indicatorMode : Mode :=
  Config.mkMode "w" "Wordplay Indicator" "text-pink-500" None
    "wordplayIndicator".
Definition synonymMode : Mode :=
  Config.mkMode "s" "Synonym" "text-green-500" (Some "bg-green-500/10"%string)
    "synonym".

Definition anagram : WordplayType :=
  Config.mkWordplayType "anag" "Anagram" 10227.

Definition mkSegment (id : string) (start end_ : Z) (m : Mode)
  (resolution : string) (w : option WordplayType) : Segment :=
  {| seg_id := js id; seg_start := start; seg_end := end_;
     seg_text := slice clue start (end_ + 1); seg_mode := m;
     seg_resolution := js resolution; seg_wordplayType := w |}.

(** "A lot" as fodder, "to" as a synonym with a resolution typed by the
    user, "change" as an indicator of an anagram. *)
Definition aLot : Segment := mkSegment "s1" 0 4 fodderMode "ALOT" None.
Definition to_ : Segment := mkSegment "s2" 6 7 synonymMode "TOWARDS" None.
Definition change : Segment :=
  mkSegment "s3" 9 14 indicatorMode "" (Some anagram).

Definition segments : list Segment := [aLot; to_; change].
End Sample.

(** ** JavaScript arrays *)

(** [a[i]] for an integer [i]: the element, or [undefined] ([None]) when
    [i] is not an index of [a]. *)
Definition at_ {A} (a : list A) (i : Z) : option A :=
  if decide (0 ≤ i) then a !! Z.to_nat i else None.

(** [a.find(p)] *)
Definition find {A} (P : A → Prop) `{∀ x, Decision (P x)}
  (a : list A) : option A :=
  snd <$> list_find P a.

(** An array that may have holes: [None] is a hole, read as
    [undefined]. *)
Abbreviation jsarray A := (list (option A)).

(** [a[i] = v] for an integer [i].  An index past the end extends the
    array, leaving holes; a negative [i] names a property that is no
    element, invisible to [length], to [concat] and to the reads at
    non-negative indices, which are the only ones the code performs. *)
Definition arraySet {A} (a : jsarray A) (i : Z) (v : A) : jsarray A :=
  if decide (i < 0) then a
  else if decide (i < Z.of_nat (length a)) then <[Z.to_nat i := Some v]> a
  else a ++ replicate (Z.to_nat i - length a) None ++ [Some v].


(** ** ClueHighlighter.tsx: [WordSelector] *)

Module WordSelector.
Section Component.
Variable text : jsstring.
Variable segments : list Segment.




End Component.
End WordSelector.

(** ** ClueHighlighter.tsx: the handlers of [ClueHighlighter] *)

Module Handlers.
Section Component.
Variable toUpperCase : jsstring → jsstring.
(** [String.prototype.toLowerCase] of the host. *)
Variable toLowerCase : jsstring → jsstring.
Variable text : jsstring.
Variable segments : list Segment.
Variable currentMode : Mode.
Variable uuid : jsstring.


(** [handleKeyDown]: [inField] tells that the active element is an INPUT or
    a TEXTAREA, [contained] that the container holds it, [isBody] that it
    is the body.  The result is the argument of [setCurrentMode], and
    [None] when it is not called. *)
Definition handleKeyDown (inField contained isBody : bool)
  (key : jsstring) : option Mode :=
  if inField then None
  else if negb contained && negb isBody then None
  else find (λ m, mode_key m = toLowerCase key) Config.modes.
End Component.
End Handlers.

(** ** App.tsx *)

Inductive Direction := across | down.

Global Instance Direction_eq_dec : EqDecision Direction.
Proof. solve_decision. Defined.

Record ClueData := {
  clue_id : jsstring;
  clue_number : jsstring;
  clue_direction : Direction;
  clue_text : jsstring;
  clue_segments : list Segment
}.

Module App.
Definition mkClue (id number : string) (d : Direction) (text : string)
  : ClueData :=
  {| clue_id := js id; clue_number := js number; clue_direction := d;
     clue_text := js text; clue_segments := [] |}.


Section Component.
(** The state: [clues] and [selectedClueId] ([None] is [null]). *)
Variable clues : list ClueData.
Variable selectedClueId : option jsstring.

Definition selectedClue : option ClueData :=
  find (λ c, Some (clue_id c) = selectedClueId) clues.

Definition acrossClues : list ClueData :=
  filter (λ c, clue_direction c = across) clues.

Definition downClues : list ClueData :=
  filter (λ c, clue_direction c = down) clues.

(** The new value of [clues]. *)
Definition updateClueSegments (clueId : jsstring) (segments : list Segment)
  : list ClueData :=
  (λ c, if decide (clue_id c = clueId) then
          {| clue_id := clue_id c; clue_number := clue_number c;
             clue_direction := clue_direction c; clue_text := clue_text c;
             clue_segments := segments |}
        else c) <$> clues.

(** The argument of [setSelectedClueId]; [None] when the handler throws,
    which it does on reading [id] of [undefined].  The remainder [%] has
    the sign of the dividend, and by zero it is [NaN], no index. *)
Definition selectNextClue : option jsstring :=
  let currentIndex :=
    findIndex (λ c, Some (clue_id c) = selectedClueId) clues in
  if decide (length clues = 0%nat) then None
  else
    let nextIndex := Z.rem (currentIndex + 1) (Z.of_nat (length clues)) in
    clue_id <$> at_ clues nextIndex.

Definition selectPrevClue : option jsstring :=
  let currentIndex :=
    findIndex (λ c, Some (clue_id c) = selectedClueId) clues in
  if decide (length clues = 0%nat) then None
  else
    let prevIndex :=
      Z.rem (currentIndex - 1 + Z.of_nat (length clues))
            (Z.of_nat (length clues)) in
    clue_id <$> at_ clues prevIndex.
End Component.
End App.

(** ** App.tsx, the earlier component kept in the same file *)

Module StyleApp.

(** The updaters that [useStateArray] passes to [setArray], as functions
    of [prev]. *)
Definition setItem {T} (item : T) (index : Z) (prev : jsarray T)
  : jsarray T :=
  arraySet prev index item.

End StyleApp.

(** ** The application as a transition system *)



Section Transitions.
Variable toUpperCase : jsstring → jsstring.
Variable toLowerCase : jsstring → jsstring.





End Transitions.

(** A collection as the reconciler builds it for a clue text: no two
    ranges overlap, and every segment lies inside the text, holds the span
    of the text it covers and has a mode of the table that is not the
    erase mode. *)
Definition segmentOk (text : jsstring) (s : Segment) : Prop :=
  0 ≤ seg_start s ∧ seg_start s ≤ seg_end s
  ∧ seg_end s < Z.of_nat (length text)
  ∧ seg_text s = slice text (seg_start s) (seg_end s + 1)
  ∧ seg_mode s ∈ Config.modes
  ∧ behaviorKey (seg_mode s) ≠ js "clear".

Definition segmentsOk (text : jsstring) (segments : list Segment) : Prop :=
  nonOverlapping segments = true ∧ Forall (segmentOk text) segments.

(** What does not change in a clue. *)
Definition clueFrame (c : ClueData) : jsstring * jsstring * Direction * jsstring :=
  (clue_id c, clue_number c, clue_direction c, clue_text c).


(** ** ClueHighlighter.tsx: [ResolutionRow] *)

Module ResolutionRow.
(** What the row renders under a segment: the text input with its value
    and its [readOnly] flag, and the wordplay selector with its value. *)
Record Entry := {
  input : option (jsstring * bool);
  selector : option (option WordplayType)
}.

(** The body of the second [segments.map]: [hasPosition] tells whether
    [positions] has an entry for the segment.  [Some None] is the [null]
    that renders nothing, and [None] the exception on reading a field of
    an [undefined] behavior. *)
Definition entry (toUpperCase : jsstring → jsstring) (hasPosition : bool)
  (segment : Segment) : option (option Entry) :=
  let behavior :=
    Config.segmentBehaviors toUpperCase !! behaviorKey (seg_mode segment) in
  if negb hasPosition then Some None
  else
    behavior ← behavior;
    if negb (showResolutionInput behavior)
       && negb (showWordplaySelector behavior)
    then Some None
    else
      Some (Some {|
        input :=
          if showResolutionInput behavior
          then Some (seg_resolution segment,
                     negb (resolutionEditable behavior))
          else None;
        selector :=
          if showWordplaySelector behavior
          then Some (seg_wordplayType segment)
          else None |}).
End ResolutionRow.

(** ** The events of the controls *)

Section Controls.
Variable toUpperCase : jsstring → jsstring.
Variable toLowerCase : jsstring → jsstring.





End Controls.

(** ** More sample data *)

Module Sample2.
(** ASCII lower-casing, for a host whose [toLowerCase] is the ASCII one on
    every code unit. *)
Definition lowerAscii (c : N) : N :=
  if ((65 <=? c) && (c <=? 90))%N then (c + 32)%N else c.

Definition toLowerCase : jsstring → jsstring := fmap lowerAscii.

(** The first clue of the application with "A lot" tagged as fodder. *)
Definition firstClue : ClueData :=
  {| clue_id := js "1a"; clue_number := js "1"; clue_direction := across;
     clue_text := js "A lot to change for singer (4)";
     clue_segments := [Sample.aLot] |}.

Definition secondClue : ClueData :=
  App.mkClue "4a" "4" across "Without guidance, I'd fart carelessly (6)".

Definition downClue : ClueData :=
  App.mkClue "5d" "5" down "Picked up lazy hero (4)".

Definition clues : list ClueData := [firstClue; secondClue; downClue].
End Sample2.

(** * Properties *)

(** ** Ranges and overlap *)

Lemma isOverlapping_sym a b : isOverlapping a b = isOverlapping b a.
Proof. unfold isOverlapping. apply andb_comm. Qed.

Lemma isOverlapping_false a b :
  isOverlapping a b = false ↔ a.2 < b.1 ∨ b.2 < a.1.
Proof.
  unfold isOverlapping. rewrite andb_false_iff, !Z.leb_gt. tauto.
Qed.

(** The predicate of the two [filter] calls of [addOrUpdateSegment] keeps a
    segment exactly when its range does not overlap the selection. *)
Lemma kept_iff_disjoint s start end_ :
  seg_end s < start ∨ seg_start s > end_
  ↔ isOverlapping (range s) (start, end_) = false.
Proof. rewrite isOverlapping_false. unfold range. simpl. lia. Qed.

Lemma filter_kept_disjoint (l : list Segment) start end_ :
  filter (λ s, seg_end s < start ∨ seg_start s > end_) l
  = filter (λ s, isOverlapping (range s) (start, end_) = false) l.
Proof.
  induction l as [|s l IH]; [done|].
  rewrite !filter_cons, IH.
  destruct (decide (seg_end s < start ∨ seg_start s > end_)) as [H|H];
    destruct (decide (isOverlapping (range s) (start, end_) = false))
      as [H'|H']; try done; exfalso.
  - apply H', kept_iff_disjoint, H.
  - apply H, kept_iff_disjoint, H'.
Qed.

Lemma nonOverlapping_cons s l :
  nonOverlapping (s :: l) = true
  ↔ Forall (λ t, isOverlapping (range s) (range t) = false) l
    ∧ nonOverlapping l = true.
Proof.
  simpl. rewrite andb_true_iff, forallb_forall, Forall_forall.
  setoid_rewrite negb_true_iff. setoid_rewrite <- list_elem_of_In. tauto.
Qed.

(** [nonOverlapping] says what its name says: segments at two different
    positions never overlap. *)
Lemma nonOverlapping_lookup l :
  nonOverlapping l = true
  ↔ ∀ i j a b, l !! i = Some a → l !! j = Some b → i ≠ j →
      isOverlapping (range a) (range b) = false.
Proof.
  induction l as [|s l IH].
  - split; [intros _ i j a b Hi; by destruct i | done].
  - rewrite nonOverlapping_cons, IH, Forall_forall. split.
    + intros [Hs Hl] [|i] [|j] a b Ha Hb Hij; simplify_eq/=.
      * apply Hs. by eapply list_elem_of_lookup_2.
      * rewrite isOverlapping_sym. apply Hs.
        by eapply list_elem_of_lookup_2.
      * eapply Hl; eauto.
    + intros H. split.
      * intros t [j Hj]%list_elem_of_lookup. by apply (H 0%nat (S j)).
      * intros i j a b Ha Hb Hij. apply (H (S i) (S j)); auto.
Qed.

Lemma nonOverlapping_filter (P : Segment → Prop) `{∀ s, Decision (P s)} l :
  nonOverlapping l = true → nonOverlapping (filter P l) = true.
Proof.
  induction l as [|s l IH]; [done|].
  rewrite nonOverlapping_cons, filter_cons. intros [Hs Hl].
  destruct (decide (P s)); [|by auto].
  apply nonOverlapping_cons. split; [|by auto].
  apply Forall_forall. intros t [_ Ht]%list_elem_of_filter.
  by eapply Forall_forall in Hs.
Qed.

Lemma nonOverlapping_snoc l s :
  nonOverlapping (l ++ [s]) = true
  ↔ nonOverlapping l = true
    ∧ Forall (λ t, isOverlapping (range t) (range s) = false) l.
Proof.
  induction l as [|t l IH]; simpl app.
  - split; [by split | done].
  - rewrite !nonOverlapping_cons, IH, Forall_app, !Forall_cons, Forall_nil.
    tauto.
Qed.

Lemma nonOverlapping_imap (f : nat → Segment → Segment) l :
  (∀ i s, range (f i s) = range s) →
  nonOverlapping l = true → nonOverlapping (imap f l) = true.
Proof.
  intros Hf. rewrite !nonOverlapping_lookup. intros Hl i j a b.
  rewrite !list_lookup_imap.
  destruct (l !! i) as [a'|] eqn:Ha, (l !! j) as [b'|] eqn:Hb; try done.
  intros [= <-] [= <-] Hij. rewrite !Hf. eauto.
Qed.

(** ** [findIndex] *)

Lemma findIndex_found {A} (P : A → Prop) `{∀ x, Decision (P x)} l i x :
  list_find P l = Some (i, x) → findIndex P l = Z.of_nat i.
Proof. unfold findIndex. by intros ->. Qed.

Lemma findIndex_absent {A} (P : A → Prop) `{∀ x, Decision (P x)} l :
  list_find P l = None → findIndex P l = -1.
Proof. unfold findIndex. by intros ->. Qed.

(** Replacing, in a [map] with index, the one element at position [i]
    is an update of the array at [i]. *)
Lemma imap_at_index {A} (g : A → A) (l : list A) (i : nat) (x : A) :
  l !! i = Some x →
  imap (λ j s, if decide (Z.of_nat j = Z.of_nat i) then g s else s) l
  = <[i := g x]> l.
Proof.
  intros Hi. apply list_eq. intros j. rewrite list_lookup_imap.
  destruct (decide (j = i)) as [->|Hne].
  - rewrite list_lookup_insert_eq by (by eapply lookup_lt_Some).
    rewrite Hi. simpl. by rewrite decide_True.
  - rewrite list_lookup_insert_ne by done.
    destruct (l !! j); simpl; [|done]. rewrite decide_False; [done|lia].
Qed.

(** ** The three branches of [addOrUpdateSegment] *)

Section Branches.
Variable toUpperCase : jsstring → jsstring.
Variables (text : jsstring) (segments : list Segment) (M : Mode).
Variables (uuid : jsstring) (start end_ : Z).

Lemma modes_have_behavior m :
  m ∈ Config.modes →
  is_Some (Config.segmentBehaviors toUpperCase !! behaviorKey m).
Proof.
  unfold Config.modes. rewrite !elem_of_cons, elem_of_nil.
  intros H; repeat (destruct H as [->|H]; [by eexists|]); done.
Qed.

Lemma defaultResolution_is_Some m t :
  m ∈ Config.modes → is_Some (defaultResolution toUpperCase m t).
Proof.
  intros [b Hb]%modes_have_behavior. unfold defaultResolution.
  rewrite Hb. by eexists.
Qed.

Lemma erase_branch :
  behaviorKey M = js "clear" →
  addOrUpdateSegment toUpperCase text segments M uuid start end_
  = Some (filter (λ s, seg_end s < start ∨ seg_start s > end_) segments).
Proof. intros H. unfold addOrUpdateSegment. by rewrite decide_True. Qed.

Lemma reselect_branch i e r :
  behaviorKey M ≠ js "clear" →
  defaultResolution toUpperCase M (seg_text e) = Some r →
  list_find (λ s, seg_start s = start ∧ seg_end s = end_) segments
  = Some (i, e) →
  addOrUpdateSegment toUpperCase text segments M uuid start end_
  = Some (<[i := retagged M r e]> segments).
Proof.
  intros Hne Hr Hfind. unfold addOrUpdateSegment, defaultResolution in *.
  rewrite decide_False by done.
  destruct (Config.segmentBehaviors toUpperCase !! behaviorKey M)
    as [b|]; [|done].
  simpl in *. injection Hr as <-.
  rewrite (findIndex_found _ _ _ _ Hfind).
  rewrite decide_True by lia. f_equal.
  apply list_find_Some in Hfind as (Hi & _ & _).
  by rewrite <- (imap_at_index (λ s, retagged M _ s) _ _ _ Hi).
Qed.

Lemma insert_branch r :
  behaviorKey M ≠ js "clear" →
  defaultResolution toUpperCase M (slice text start (end_ + 1)) = Some r →
  list_find (λ s, seg_start s = start ∧ seg_end s = end_) segments = None →
  addOrUpdateSegment toUpperCase text segments M uuid start end_
  = Some (filter (λ s, seg_end s < start ∨ seg_start s > end_) segments
          ++ [ {| seg_id := uuid; seg_start := start; seg_end := end_;
                  seg_text := slice text start (end_ + 1); seg_mode := M;
                  seg_resolution := r; seg_wordplayType := None |} ]).
Proof.
  intros Hne Hr Hfind. unfold addOrUpdateSegment, defaultResolution in *.
  rewrite decide_False by done.
  destruct (Config.segmentBehaviors toUpperCase !! behaviorKey M)
    as [b|]; [|done].
  simpl in *. injection Hr as <-.
  rewrite (findIndex_absent _ _ Hfind). by rewrite decide_False by lia.
Qed.

(** Whatever the branch, a result is one of the three shapes. *)
Lemma addOrUpdateSegment_cases segments' :
  addOrUpdateSegment toUpperCase text segments M uuid start end_
  = Some segments' →
  segments' = filter (λ s, seg_end s < start ∨ seg_start s > end_) segments
  ∨ (∃ i e r,
       list_find (λ s, seg_start s = start ∧ seg_end s = end_) segments
       = Some (i, e)
       ∧ segments' = <[i := retagged M r e]> segments)
  ∨ (∃ r,
       segments'
       = filter (λ s, seg_end s < start ∨ seg_start s > end_) segments
         ++ [ {| seg_id := uuid; seg_start := start; seg_end := end_;
                 seg_text := slice text start (end_ + 1); seg_mode := M;
                 seg_resolution := r; seg_wordplayType := None |} ]).
Proof.
  destruct (decide (behaviorKey M = js "clear")) as [Hc|Hc].
  { rewrite erase_branch by done. intros [= <-]. by left. }
  destruct (defaultResolution toUpperCase M []) as [r0|] eqn:Hr0; cycle 1.
  { unfold addOrUpdateSegment, defaultResolution in *.
    rewrite decide_False by done.
    by destruct (Config.segmentBehaviors toUpperCase !! behaviorKey M). }
  assert (∀ t, is_Some (defaultResolution toUpperCase M t)) as Hdef.
  { intros t. unfold defaultResolution in *.
    destruct (Config.segmentBehaviors toUpperCase !! behaviorKey M);
      [by eexists | done]. }
  destruct (list_find (λ s, seg_start s = start ∧ seg_end s = end_) segments)
    as [[i e]|] eqn:Hfind.
  - destruct (Hdef (seg_text e)) as [r Hr].
    rewrite (reselect_branch i e r) by done. intros [= <-].
    right; left. by exists i, e, r.
  - destruct (Hdef (slice text start (end_ + 1))) as [r Hr].
    rewrite (insert_branch r) by done. intros [= <-].
    right; right. by exists r.
Qed.
End Branches.

Lemma addOrUpdateSegment_is_Some toUpperCase text segments M uuid start end_ :
  M ∈ Config.modes →
  is_Some (addOrUpdateSegment toUpperCase text segments M uuid start end_).
Proof.
  intros HM. destruct (decide (behaviorKey M = js "clear")) as [Hc|Hc].
  { rewrite erase_branch by done. by eexists. }
  destruct (list_find (λ s, seg_start s = start ∧ seg_end s = end_) segments)
    as [[i e]|] eqn:Hfind.
  - destruct (defaultResolution_is_Some toUpperCase M (seg_text e) HM)
      as [r Hr].
    rewrite (reselect_branch _ _ _ _ _ _ _ i e r) by done. by eexists.
  - destruct (defaultResolution_is_Some toUpperCase M
                (slice text start (end_ + 1)) HM) as [r Hr].
    rewrite (insert_branch _ _ _ _ _ _ _ r) by done. by eexists.
Qed.

Lemma nonOverlapping_insert_same_range l i e e' :
  l !! i = Some e → range e' = range e →
  nonOverlapping l = true → nonOverlapping (<[i := e']> l) = true.
Proof.
  intros Hi Hrange. rewrite !nonOverlapping_lookup. intros Hl.
  assert (∀ j a, <[i := e']> l !! j = Some a →
                 ∃ a0, l !! j = Some a0 ∧ range a0 = range a) as Hsame.
  { intros j a. destruct (decide (j = i)) as [->|Hne].
    - rewrite list_lookup_insert_eq by (by eapply lookup_lt_Some).
      intros [= <-]. by exists e.
    - rewrite list_lookup_insert_ne by done. intros Ha. by exists a. }
  intros j k a b (a0 & Ha0 & <-)%Hsame (b0 & Hb0 & <-)%Hsame Hjk. eauto.
Qed.

(** ** The invariant *)

(** C1. From a collection without two overlapping ranges,
    [addOrUpdateSegment] produces a collection without two overlapping
    ranges, whatever the clue text, the mode and the selection, in each of
    its three branches (the bound [start <= end] is not needed); and for
    every mode of the table [modes] it does produce a collection. *)
Theorem reconcile_preserves_nonOverlapping
  toUpperCase text segments M uuid start end_ :
  nonOverlapping segments = true →
  (M ∈ Config.modes →
   is_Some (addOrUpdateSegment toUpperCase text segments M uuid start end_))
  ∧ ∀ segments',
      addOrUpdateSegment toUpperCase text segments M uuid start end_
      = Some segments' →
      nonOverlapping segments' = true.
Proof.
  intros Hinv. split; [apply addOrUpdateSegment_is_Some|].
  intros segments' [->|[(i & e & r & Hfind & ->)|(r & ->)]]%addOrUpdateSegment_cases.
  - by apply nonOverlapping_filter.
  - apply list_find_Some in Hfind as (Hi & _ & _).
    by eapply nonOverlapping_insert_same_range.
  - apply nonOverlapping_snoc. split; [by apply nonOverlapping_filter|].
    apply Forall_forall. intros t [Ht _]%list_elem_of_filter.
    by apply kept_iff_disjoint.
Qed.

(** ** Erasing *)

(** C4. Under the mode whose behavior key is "clear", the result is the
    input collection without the segments whose range overlaps the
    selection: the others stay, in their order and as they are, and
    nothing is created.  It holds for every collection and every selection
    (the bound [start <= end] is not needed). *)
Theorem erase_removes_overlapping
  toUpperCase text segments M uuid start end_ :
  behaviorKey M = js "clear" →
  addOrUpdateSegment toUpperCase text segments M uuid start end_
  = Some (filter (λ s, isOverlapping (range s) (start, end_) = false)
            segments).
Proof.
  intros Hc. rewrite erase_branch by done. by rewrite filter_kept_disjoint.
Qed.

(** ** The overlap predicate *)

(** C6. The predicate that keeps a segment in the erase branch and in the
    insert branch, [s.end < start || s.start > end], is the negation of
    [isOverlapping] of the specification on all integer ranges; and a
    segment adjacent to the selection ([s.end = start - 1] or
    [s.start = end + 1]) is still in the collection after either of the
    two branches. *)
Theorem kept_is_not_overlapping (s : Segment) (start end_ : Z) :
  bool_decide (seg_end s < start ∨ seg_start s > end_)
  = negb (isOverlapping (range s) (start, end_))
  ∧ ∀ toUpperCase text segments M uuid segments',
      s ∈ segments →
      seg_end s = start - 1 ∨ seg_start s = end_ + 1 →
      behaviorKey M = js "clear"
      ∨ Forall (λ t, ¬ (seg_start t = start ∧ seg_end t = end_)) segments →
      addOrUpdateSegment toUpperCase text segments M uuid start end_
      = Some segments' →
      s ∈ segments'.
Proof.
  split.
  { destruct (isOverlapping (range s) (start, end_)) eqn:Ho; simpl.
    - apply bool_decide_eq_false. rewrite kept_iff_disjoint. congruence.
    - apply bool_decide_eq_true. by rewrite kept_iff_disjoint. }
  intros toUpperCase text segments M uuid segments' Hs Hadj Hbranch Hres.
  assert (s ∈ filter (λ s, seg_end s < start ∨ seg_start s > end_) segments)
    as Hkept by (apply list_elem_of_filter; split; [lia | done]).
  destruct (decide (behaviorKey M = js "clear")) as [Hc|Hc].
  { rewrite erase_branch in Hres by done. by injection Hres as <-. }
  destruct Hbranch as [?|Hnone]; [done|].
  apply addOrUpdateSegment_cases in Hres
    as [->|[(i & e & r & Hfind & ->)|(r & ->)]].
  - done.
  - exfalso. apply list_find_Some in Hfind as (Hi & He & _).
    eapply Forall_forall in Hnone; [|by eapply list_elem_of_lookup_2].
    done.
  - apply elem_of_app. by left.
Qed.

(** ** [slice] on indices inside the text *)

(** For [0 <= start <= end < length], [text.slice(start, end + 1)] is the
    inclusive span: [end - start + 1] code units, the one at offset [k]
    being the code unit [start + k] of the text. *)
Lemma slice_inclusive (text : jsstring) start end_ :
  0 ≤ start → start ≤ end_ → end_ < Z.of_nat (length text) →
  Z.of_nat (length (slice text start (end_ + 1))) = end_ - start + 1
  ∧ ∀ k, start ≤ k ≤ end_ →
      slice text start (end_ + 1) !! Z.to_nat (k - start)
      = text !! Z.to_nat k.
Proof.
  intros H0 Hle Hlen. unfold slice.
  destruct (Z.ltb_spec start 0) as [?|_]; [lia|].
  destruct (Z.ltb_spec (end_ + 1) 0) as [?|_]; [lia|].
  rewrite Z.min_l, Z.min_l by lia. split.
  - rewrite length_take, length_drop. lia.
  - intros k Hk. rewrite lookup_take_lt by lia. rewrite lookup_drop.
    f_equal. lia.
Qed.

Lemma first_match_of_nonOverlapping segments i e :
  nonOverlapping segments = true →
  segments !! i = Some e → seg_start e ≤ seg_end e →
  list_find (λ s, seg_start s = seg_start e ∧ seg_end s = seg_end e) segments
  = Some (i, e).
Proof.
  intros Hinv Hi Hle. apply list_find_Some. split_and!; [done..|].
  intros j y Hj Hlt [Hs He].
  eapply nonOverlapping_lookup in Hinv; [|exact Hj|exact Hi|lia].
  apply isOverlapping_false in Hinv. unfold range in Hinv. simpl in Hinv.
  lia.
Qed.

(** ** Inserting a new segment *)

(** C2. Under a mode of the table other than the erase mode, when no
    segment has exactly the selected range, the result is the input
    collection without the segments whose range overlaps the selection,
    the others being kept as they are and in their order, followed by one
    new segment: its id is the identifier handed out by the host, its range
    the selection, its text [text.slice(start, end + 1)], its mode [M], its
    resolution [defaultResolution(M, that text)], and it has no
    wordplayType.  For a selection inside the text that text is the
    inclusive span [start..end]; and when the host's identifier is not
    already used, the ids of the result are distinct if those of the input
    were. *)
Theorem insert_replaces_overlapping
  toUpperCase text segments M uuid start end_ :
  M ∈ Config.modes → behaviorKey M ≠ js "clear" →
  start ≤ end_ →
  Forall (λ s, ¬ (seg_start s = start ∧ seg_end s = end_)) segments →
  ∃ r segments',
    defaultResolution toUpperCase M (slice text start (end_ + 1)) = Some r
    ∧ segments'
      = filter (λ s, isOverlapping (range s) (start, end_) = false) segments
        ++ [ {| seg_id := uuid; seg_start := start; seg_end := end_;
                seg_text := slice text start (end_ + 1); seg_mode := M;
                seg_resolution := r; seg_wordplayType := None |} ]
    ∧ addOrUpdateSegment toUpperCase text segments M uuid start end_
      = Some segments'
    ∧ (0 ≤ start → end_ < Z.of_nat (length text) →
       Z.of_nat (length (slice text start (end_ + 1))) = end_ - start + 1
       ∧ ∀ k, start ≤ k ≤ end_ →
           slice text start (end_ + 1) !! Z.to_nat (k - start)
           = text !! Z.to_nat k)
    ∧ (uuid ∉ seg_id <$> segments → NoDup (seg_id <$> segments) →
       NoDup (seg_id <$> segments')).
Proof.
  intros HM Hc Hle Hnone.
  destruct (defaultResolution_is_Some toUpperCase M
              (slice text start (end_ + 1)) HM) as [r Hr].
  exists r. eexists. split_and!; [done | reflexivity | | |].
  - rewrite (insert_branch _ _ _ _ _ _ _ r); [|done..|].
    + by rewrite filter_kept_disjoint.
    + by apply list_find_None.
  - intros. by apply slice_inclusive.
  - intros Hfresh Hnodup. rewrite fmap_app. apply NoDup_app. split_and!.
    + eapply sublist_NoDup; [exact Hnodup|].
      apply fmap_sublist, sublist_filter.
    + intros x (s & -> & [_ Hs]%list_elem_of_filter)%list_elem_of_fmap.
      simpl. rewrite list_elem_of_singleton. intros Heq. apply Hfresh.
      apply list_elem_of_fmap. by exists s.
    + simpl. apply NoDup_singleton.
Qed.

(** ** Re-selecting an existing span *)

(** C3. Under a mode of the table other than the erase mode, when some
    segment has exactly the selected range, the result is the input
    collection with one position [i] updated: the segment [e] there has
    the selected range (it is the first such), and it is replaced by [e]
    with mode [M] and resolution [defaultResolution(M, e.text)], computed
    from the stored text; id, start, end, text and wordplayType of [e] are
    kept, the length of the collection is the same and every other position
    holds what it held.  In a collection without overlapping ranges and for
    [start <= end], no other segment has the selected range. *)
Theorem reselect_replaces_mode_and_resolution
  toUpperCase text segments M uuid start end_ :
  M ∈ Config.modes → behaviorKey M ≠ js "clear" →
  (∃ e, e ∈ segments ∧ seg_start e = start ∧ seg_end e = end_) →
  ∃ i e r segments',
    segments !! i = Some e ∧ seg_start e = start ∧ seg_end e = end_
    ∧ defaultResolution toUpperCase M (seg_text e) = Some r
    ∧ addOrUpdateSegment toUpperCase text segments M uuid start end_
      = Some segments'
    ∧ segments' !! i
      = Some {| seg_id := seg_id e; seg_start := seg_start e;
                seg_end := seg_end e; seg_text := seg_text e;
                seg_mode := M; seg_resolution := r;
                seg_wordplayType := seg_wordplayType e |}
    ∧ length segments' = length segments
    ∧ (∀ j, j ≠ i → segments' !! j = segments !! j)
    ∧ (nonOverlapping segments = true → start ≤ end_ →
       ∀ j e0, segments !! j = Some e0 →
               seg_start e0 = start → seg_end e0 = end_ → j = i).
Proof.
  intros HM Hc (e0 & He0 & Hs0 & Hn0).
  destruct (list_find_elem_of
              (λ s, seg_start s = start ∧ seg_end s = end_) segments e0)
    as [[i e] Hfind]; [done..|].
  destruct (defaultResolution_is_Some toUpperCase M (seg_text e) HM)
    as [r Hr].
  pose proof Hfind as (Hi & [Hs He] & Hfirst)%list_find_Some.
  exists i, e, r, (<[i := retagged M r e]> segments).
  split_and!; try done.
  - by apply reselect_branch.
  - apply list_lookup_insert_eq. by eapply lookup_lt_Some.
  - apply length_insert.
  - intros j Hj. by apply list_lookup_insert_ne.
  - intros Hinv Hle j e1 Hj Hs1 Hn1.
    destruct (decide (j = i)) as [|Hne]; [done|exfalso].
    eapply nonOverlapping_lookup in Hinv; [|exact Hj|exact Hi|done].
    apply isOverlapping_false in Hinv. unfold range in Hinv. simpl in Hinv.
    lia.
Qed.

(** C9. Re-selecting the exact range of a segment under the mode the
    segment already has puts [defaultResolution(mode, segment.text)] in its
    resolution, whatever the resolution was before, so that a value typed
    by the user is lost; under the synonym mode the resolution becomes the
    empty string. *)
Theorem reselect_same_mode_resets_resolution
  toUpperCase text segments uuid i e :
  segments !! i = Some e →
  nonOverlapping segments = true → seg_start e ≤ seg_end e →
  seg_mode e ∈ Config.modes → behaviorKey (seg_mode e) ≠ js "clear" →
  ∃ r,
    defaultResolution toUpperCase (seg_mode e) (seg_text e) = Some r
    ∧ addOrUpdateSegment toUpperCase text segments (seg_mode e) uuid
        (seg_start e) (seg_end e)
      = Some (<[i := {| seg_id := seg_id e; seg_start := seg_start e;
                        seg_end := seg_end e; seg_text := seg_text e;
                        seg_mode := seg_mode e; seg_resolution := r;
                        seg_wordplayType := seg_wordplayType e |}]>
                segments)
    ∧ (behaviorKey (seg_mode e) = js "synonym" → r = []).
Proof.
  intros Hi Hinv Hle HM Hc.
  destruct (defaultResolution_is_Some toUpperCase (seg_mode e)
              (seg_text e) HM) as [r Hr].
  exists r. split_and!; [done| |].
  - apply (reselect_branch _ _ _ _ _ _ _ i e r); [done..|].
    by apply first_match_of_nonOverlapping.
  - intros Hsyn. unfold defaultResolution in Hr. rewrite Hsyn in Hr.
    vm_compute in Hr. congruence.
Qed.

(** ** Field edits *)

(** C8. [updateResolution] and [updateWordplayType] return the collection
    itself when no segment has the given id, without an error; in general
    they keep every position, a segment with another id is left as it is
    and a segment with the given id has the one field replaced. *)
Theorem field_edits_by_id segments id resolution wordplayType :
  (id ∉ seg_id <$> segments →
   updateResolution segments id resolution = segments
   ∧ updateWordplayType segments id wordplayType = segments)
  ∧ (∀ i, updateResolution segments id resolution !! i
          = (λ s, if decide (seg_id s = id) then
                    {| seg_id := seg_id s; seg_start := seg_start s;
                       seg_end := seg_end s; seg_text := seg_text s;
                       seg_mode := seg_mode s;
                       seg_resolution := resolution;
                       seg_wordplayType := seg_wordplayType s |}
                  else s) <$> segments !! i)
  ∧ (∀ i, updateWordplayType segments id wordplayType !! i
          = (λ s, if decide (seg_id s = id) then
                    {| seg_id := seg_id s; seg_start := seg_start s;
                       seg_end := seg_end s; seg_text := seg_text s;
                       seg_mode := seg_mode s;
                       seg_resolution := seg_resolution s;
                       seg_wordplayType := wordplayType |}
                  else s) <$> segments !! i).
Proof.
  split_and!.
  - intros Hid. unfold updateResolution, updateWordplayType.
    split; rewrite <- (list_fmap_id segments) at 2;
      apply list_fmap_ext; intros i s Hs; rewrite decide_False; try done;
      intros <-; apply Hid, list_elem_of_fmap; exists s;
      (split; [done | by eapply list_elem_of_lookup_2]).
  - intros i. unfold updateResolution. apply list_lookup_fmap.
  - intros i. unfold updateWordplayType. apply list_lookup_fmap.
Qed.

(** ** Sorting by a key *)

Section SortByKey.
Context {A : Type} (key : A → Z).

Lemma insertBy_Permutation (cmp : A → A → Z) x l :
  insertBy cmp x l ≡ₚ x :: l.
Proof.
  induction l as [|y l IH]; simpl; [done|].
  destruct (decide (cmp x y ≤ 0)); [done|].
  rewrite IH. apply Permutation_swap.
Qed.

Lemma sortBy_Permutation (cmp : A → A → Z) l : sortBy cmp l ≡ₚ l.
Proof.
  induction l as [|x l IH]; simpl; [done|].
  by rewrite insertBy_Permutation, IH.
Qed.

Lemma insertBy_sorted x l :
  StronglySorted (λ a b, key a ≤ key b) l →
  StronglySorted (λ a b, key a ≤ key b) (insertBy (λ a b, key a - key b) x l).
Proof.
  induction 1 as [|y l Hl IH Hy]; simpl.
  - by repeat constructor.
  - destruct (decide (key x - key y ≤ 0)) as [Hxy|Hxy].
    + constructor; [by constructor|]. constructor; [lia|].
      eapply Forall_impl; [exact Hy|]. simpl. intros. lia.
    + constructor; [done|].
      rewrite (insertBy_Permutation _ x l). constructor; [lia | done].
Qed.

Lemma sortBy_sorted l :
  StronglySorted (λ a b, key a ≤ key b) (sortBy (λ a b, key a - key b) l).
Proof.
  induction l as [|x l IH]; simpl; [constructor|]. by apply insertBy_sorted.
Qed.

(** The sort is stable: the elements with a given key are in the output in
    the order they have in the input. *)
Lemma insertBy_stable k x l :
  filter (λ a, key a = k) (insertBy (λ a b, key a - key b) x l)
  = filter (λ a, key a = k) (x :: l).
Proof.
  induction l as [|y l IH]; simpl; [done|].
  destruct (decide (key x - key y ≤ 0)) as [Hxy|Hxy]; [done|].
  rewrite (filter_cons _ y), IH, !filter_cons.
  repeat case_decide; try done; lia.
Qed.

Lemma sortBy_stable k l :
  filter (λ a, key a = k) (sortBy (λ a b, key a - key b) l)
  = filter (λ a, key a = k) l.
Proof.
  induction l as [|x l IH]; simpl; [done|].
  by rewrite insertBy_stable, !filter_cons, IH.
Qed.
End SortByKey.

(** ** The summary *)

(** C7. The summary joins with " → " the labels of a list [kept] that
    holds exactly the segments with a non-empty resolution or a
    wordplayType, each as often as the collection has it, ordered by
    [start] ascending, segments with the same [start] staying in the order
    of the collection; the label of a segment is the name of its
    wordplayType when it has one and its resolution otherwise.  Two
    segments without wordplayType, one at 5 resolved to "X" and one at 0
    resolved to "Y", give "Y → X" in either order of insertion. *)
Theorem summary_sorted_projection segments :
  (∃ kept,
     kept ≡ₚ filter (λ s, seg_resolution s ≠ [] ∨ is_Some (seg_wordplayType s))
               segments
     ∧ StronglySorted (λ a b, seg_start a ≤ seg_start b) kept
     ∧ (∀ k, filter (λ s, seg_start s = k) kept
             = filter (λ s, seg_start s = k)
                 (filter (λ s, seg_resolution s ≠ []
                               ∨ is_Some (seg_wordplayType s)) segments))
     ∧ summary segments
       = join arrow
           ((λ s, match seg_wordplayType s with
                  | Some w => wp_name w
                  | None => seg_resolution s
                  end) <$> kept))
  ∧ ∀ a b,
      seg_start a = 5 → seg_resolution a = js "X" →
      seg_wordplayType a = None →
      seg_start b = 0 → seg_resolution b = js "Y" →
      seg_wordplayType b = None →
      summary [a; b] = js "Y" ++ arrow ++ js "X"
      ∧ summary [b; a] = js "Y" ++ arrow ++ js "X".
Proof.
  split.
  - exists (sortBy (λ a b, seg_start a - seg_start b)
              (filter summaryKeeps segments)).
    split_and!.
    + apply sortBy_Permutation.
    + apply (sortBy_sorted seg_start).
    + intros k. apply (sortBy_stable seg_start).
    + reflexivity.
  - intros a b Ha Hra Hwa Hb Hrb Hwb.
    assert (summaryKeeps a) as Hka by (left; by rewrite Hra).
    assert (summaryKeeps b) as Hkb by (left; by rewrite Hrb).
    unfold summary.
    rewrite !filter_cons_True, filter_nil by done. simpl.
    rewrite Ha, Hb. simpl.
    unfold summaryLabel. by rewrite Hwa, Hwb, Hra, Hrb.
Qed.

(** C10. The re-selection of the exact range of a segment keeps its
    wordplayType under every target mode of the table other than the erase
    mode, also one whose behavior does not show the wordplay selector; when
    the segment carries a wordplayType [w], the re-tagged segment passes
    the filter of the summary with the name of [w] as its label, although
    its resolution is now the empty string under the synonym mode, so the
    name of [w] is among the joined labels, and the summary of a collection
    made of that one segment is the name of [w]. *)
Theorem reselect_keeps_wordplayType
  toUpperCase text segments M uuid i e :
  segments !! i = Some e →
  nonOverlapping segments = true → seg_start e ≤ seg_end e →
  M ∈ Config.modes → behaviorKey M ≠ js "clear" →
  ∃ segments' e',
    addOrUpdateSegment toUpperCase text segments M uuid
      (seg_start e) (seg_end e) = Some segments'
    ∧ segments' !! i = Some e'
    ∧ seg_mode e' = M
    ∧ seg_wordplayType e' = seg_wordplayType e
    ∧ (behaviorKey M = js "synonym" → seg_resolution e' = [])
    ∧ ∀ w, seg_wordplayType e = Some w →
        summaryKeeps e' ∧ summaryLabel e' = wp_name w
        ∧ wp_name w
          ∈ summaryLabel
              <$> sortBy (λ a b, seg_start a - seg_start b)
                    (filter summaryKeeps segments')
        ∧ (segments = [e] → summary segments' = wp_name w).
Proof.
  intros Hi Hinv Hle HM Hc.
  destruct (defaultResolution_is_Some toUpperCase M (seg_text e) HM)
    as [r Hr].
  assert (<[i := retagged M r e]> segments !! i = Some (retagged M r e))
    as Hi' by (apply list_lookup_insert_eq; by eapply lookup_lt_Some).
  exists (<[i := retagged M r e]> segments), (retagged M r e).
  split_and!; try done.
  - apply reselect_branch; [done..|].
    by apply first_match_of_nonOverlapping.
  - intros Hsyn. unfold defaultResolution in Hr. rewrite Hsyn in Hr.
    vm_compute in Hr. simpl. congruence.
  - intros w Hw.
    assert (summaryKeeps (retagged M r e)) as Hkeep
      by (right; simpl; rewrite Hw; by eexists).
    assert (summaryLabel (retagged M r e) = wp_name w) as Hlabel
      by (unfold summaryLabel; simpl; by rewrite Hw).
    split_and!; try done.
    + rewrite <- Hlabel. apply list_elem_of_fmap_2.
      rewrite sortBy_Permutation. apply list_elem_of_filter.
      split; [done|]. by eapply list_elem_of_lookup_2.
    + intros ->. destruct i; [|done]. unfold summary. simpl.
      rewrite filter_cons_True, filter_nil by done. simpl. done.
Qed.

(** ** Default resolutions *)

Lemma join_empty_cons (x : jsstring) (a : list jsstring) :
  join [] (x :: a) = x ++ join [] a.
Proof. destruct a; simpl; [by rewrite app_nil_r | done]. Qed.

(** [t.split("").join("")] gives [t] back. *)
Lemma join_splitUnits (t : jsstring) : join [] (splitUnits t) = t.
Proof.
  induction t as [|c t IH]; [done|].
  unfold splitUnits in *. rewrite fmap_cons, join_empty_cons, IH. done.
Qed.

(** The first code units of the pieces of [split(/\s+/)], joined, are the
    word initials of the text. *)
Lemma join_first_splitRuns (t cur : jsstring) (inRun : bool) :
  (inRun = true → cur = []) →
  join [] (firstOrEmpty <$> splitRuns cur inRun t)
  = take 1 cur ++ wordInitialsFrom (bool_decide (cur = [])) t.
Proof.
  revert cur inRun. induction t as [|c t IH]; intros cur inRun Hrun; simpl.
  - by rewrite app_nil_r.
  - destruct (isWhiteSpace c).
    + destruct inRun.
      * rewrite IH by done. rewrite Hrun by done. done.
      * rewrite fmap_cons, join_empty_cons, IH by done. done.
    + rewrite IH by done. destruct cur as [|c0 cur]; simpl; [done|].
      done.
Qed.

Lemma join_first_splitWhiteSpace (t : jsstring) :
  join [] (firstOrEmpty <$> splitWhiteSpace t) = wordInitials t.
Proof.
  unfold splitWhiteSpace. by rewrite join_first_splitRuns by done.
Qed.

(** C5. [defaultResolution] depends on the behavior key of the mode and on
    the span text only.  For every text: under "fodder" it is the text
    without its white-space code units, upper-cased; under "abbreviation"
    it is the upper-cased concatenation of the first code units of the
    white-space-delimited words, a word without characters giving none;
    under "synonym", "definition", "wordplayIndicator" and "clear" it is
    the empty string.  With a [toUpperCase] that is the ASCII one on ASCII
    text, "A Lot" gives "ALOT", "A Lot To Change" gives "ALTC" and the
    synonym of "anything" is "". *)
Theorem defaultResolution_policy (toUpperCase : jsstring → jsstring) :
  (∀ t, Forall isAscii t → toUpperCase t = upperAscii <$> t) →
  ∀ (m : Mode) (t : jsstring),
    (behaviorKey m = js "fodder" →
     defaultResolution toUpperCase m t
     = Some (toUpperCase (filter (λ c, isWhiteSpace c = false) t))
     ∧ defaultResolution toUpperCase m (js "A Lot") = Some (js "ALOT"))
    ∧ (behaviorKey m = js "abbreviation" →
       defaultResolution toUpperCase m t
       = Some (toUpperCase (wordInitials t))
       ∧ defaultResolution toUpperCase m (js "A Lot To Change")
         = Some (js "ALTC"))
    ∧ (behaviorKey m ∈ [js "synonym"; js "definition";
                        js "wordplayIndicator"; js "clear"] →
       defaultResolution toUpperCase m t = Some []
       ∧ defaultResolution toUpperCase m (js "anything") = Some (js "")).
Proof.
  intros Hascii m t.
  assert (∀ t', behaviorKey m = js "fodder" →
                defaultResolution toUpperCase m t'
                = Some (toUpperCase (removeWhiteSpace t'))) as Hfodder.
  { intros t' Hk. unfold defaultResolution. rewrite Hk.
    change (Config.segmentBehaviors toUpperCase !! js "fodder")
      with (Some (Config.fodder toUpperCase)).
    simpl. by rewrite join_splitUnits. }
  assert (∀ t', behaviorKey m = js "abbreviation" →
                defaultResolution toUpperCase m t'
                = Some (toUpperCase (wordInitials t'))) as Habbr.
  { intros t' Hk. unfold defaultResolution. rewrite Hk.
    change (Config.segmentBehaviors toUpperCase !! js "abbreviation")
      with (Some (Config.abbreviation toUpperCase)).
    simpl. by rewrite join_first_splitWhiteSpace. }
  split_and!.
  - intros Hk. split; [by apply Hfodder|].
    rewrite Hfodder by done. f_equal.
    rewrite Hascii; [done|]. unfold isAscii.
    repeat (constructor; [done|]). constructor.
  - intros Hk. split; [by apply Habbr|].
    rewrite Habbr by done. f_equal.
    rewrite Hascii; [done|]. unfold isAscii.
    repeat (constructor; [done|]). constructor.
  - rewrite !elem_of_cons, elem_of_nil. unfold defaultResolution.
    intros [->|[->|[->|[->|[]]]]]; done.
Qed.

(** * The properties on the sample clue *)

(** The sample collection tags "A lot" (0-4), "to" (6-7) and "change"
    (9-14) of "A lot to change". *)

Lemma fodderMode_in_modes : Sample.fodderMode ∈ Config.modes.
Proof. unfold Config.modes. set_solver. Qed.

Lemma synonymMode_in_modes : Sample.synonymMode ∈ Config.modes.
Proof. unfold Config.modes. set_solver. Qed.

(** Selecting "ot t" (3-6) as fodder keeps the collection free of
    overlaps. *)
Lemma reconcile_preserves_nonOverlapping_witness :
  nonOverlapping Sample.segments = true
  ∧ nonOverlapping
      [Sample.change; Sample.mkSegment "s4" 3 6 Sample.fodderMode "OTT" None]
    = true.
Proof.
  split; [reflexivity|].
  apply (reconcile_preserves_nonOverlapping Sample.toUpperCase Sample.clue
           Sample.segments Sample.fodderMode (js "s4") 3 6);
    reflexivity.
Defined.

(** Selecting "ot t" (3-6) as fodder removes "A lot" and "to" and appends
    the new span, resolved to "OTT". *)
Lemma insert_replaces_overlapping_witness :
  addOrUpdateSegment Sample.toUpperCase Sample.clue Sample.segments
    Sample.fodderMode (js "s4") 3 6
  = Some [Sample.change; Sample.mkSegment "s4" 3 6 Sample.fodderMode "OTT" None].
Proof.
  destruct (insert_replaces_overlapping Sample.toUpperCase Sample.clue
              Sample.segments Sample.fodderMode (js "s4") 3 6)
    as (r & segments' & Hr & -> & -> & _).
  - exact fodderMode_in_modes.
  - discriminate.
  - lia.
  - repeat constructor; simpl; lia.
  - vm_compute in Hr. injection Hr as <-. reflexivity.
Defined.

(** Re-selecting "A lot" (0-4) as a synonym re-tags the first segment. *)
Lemma reselect_replaces_mode_and_resolution_witness :
  ∃ segments',
    addOrUpdateSegment Sample.toUpperCase Sample.clue Sample.segments
      Sample.synonymMode (js "s4") 0 4 = Some segments'
    ∧ length segments' = length Sample.segments.
Proof.
  destruct (reselect_replaces_mode_and_resolution Sample.toUpperCase
              Sample.clue Sample.segments Sample.synonymMode (js "s4") 0 4)
    as (i & e & r & segments' & _ & _ & _ & _ & Hres & _ & Hlen & _).
  - exact synonymMode_in_modes.
  - discriminate.
  - exists Sample.aLot. split_and!; [|reflexivity..].
    unfold Sample.segments. set_solver.
  - by exists segments'.
Defined.

(** Erasing 3-6 leaves "change" alone. *)
Lemma erase_removes_overlapping_witness :
  addOrUpdateSegment Sample.toUpperCase Sample.clue Sample.segments
    Sample.clearMode (js "s4") 3 6
  = Some [Sample.change].
Proof.
  rewrite (erase_removes_overlapping Sample.toUpperCase Sample.clue
             Sample.segments Sample.clearMode (js "s4") 3 6);
    reflexivity.
Defined.

(** The examples of the specification, on the ASCII host. *)
Lemma defaultResolution_policy_witness :
  defaultResolution Sample.toUpperCase Sample.fodderMode (js "A Lot")
  = Some (js "ALOT").
Proof.
  apply (defaultResolution_policy Sample.toUpperCase
           (λ t _, eq_refl) Sample.fodderMode (js "A Lot")).
  reflexivity.
Defined.

(** "to" ends at 7: erasing from 8 on does not remove it. *)
Lemma kept_is_not_overlapping_witness :
  Sample.to_ ∈ [Sample.aLot; Sample.to_].
Proof.
  apply (proj2 (kept_is_not_overlapping Sample.to_ 8 10)
           Sample.toUpperCase Sample.clue Sample.segments Sample.clearMode
           (js "s4")).
  - unfold Sample.segments. set_solver.
  - left. reflexivity.
  - left. reflexivity.
  - reflexivity.
Defined.

(** The example of the specification with the remaining fields filled. *)
Lemma summary_sorted_projection_witness :
  summary [Sample.mkSegment "a" 5 5 Sample.synonymMode "X" None;
           Sample.mkSegment "b" 0 0 Sample.synonymMode "Y" None]
  = js "Y" ++ arrow ++ js "X".
Proof.
  destruct (summary_sorted_projection []) as [_ Hexample].
  apply (Hexample (Sample.mkSegment "a" 5 5 Sample.synonymMode "X" None)
                  (Sample.mkSegment "b" 0 0 Sample.synonymMode "Y" None));
    reflexivity.
Defined.

(** An id that no segment has. *)
Lemma field_edits_by_id_witness :
  updateResolution Sample.segments (js "s9") (js "X") = Sample.segments.
Proof.
  apply (field_edits_by_id Sample.segments (js "s9") (js "X") None).
  compute_done.
Defined.

(** Re-selecting "to" (6-7) as a synonym again loses "TOWARDS". *)
Lemma reselect_same_mode_resets_resolution_witness :
  addOrUpdateSegment Sample.toUpperCase Sample.clue Sample.segments
    Sample.synonymMode (js "s4") 6 7
  = Some [Sample.aLot; Sample.mkSegment "s2" 6 7 Sample.synonymMode "" None;
          Sample.change].
Proof.
  destruct (reselect_same_mode_resets_resolution Sample.toUpperCase
              Sample.clue Sample.segments (js "s4") 1 Sample.to_)
    as (r & Hr & Hres & Hsyn).
  - reflexivity.
  - reflexivity.
  - simpl. lia.
  - exact synonymMode_in_modes.
  - discriminate.
  - simpl in Hres. rewrite Hres, Hsyn; reflexivity.
Defined.

(** Re-tagging "change" (9-14), an indicator of an anagram, as a synonym:
    the summary still names the anagram. *)
Lemma reselect_keeps_wordplayType_witness :
  ∃ segments',
    addOrUpdateSegment Sample.toUpperCase Sample.clue Sample.segments
      Sample.synonymMode (js "s4") 9 14 = Some segments'
    ∧ js "Anagram"
      ∈ summaryLabel
          <$> sortBy (λ a b, seg_start a - seg_start b)
                (filter summaryKeeps segments').
Proof.
  destruct (reselect_keeps_wordplayType Sample.toUpperCase Sample.clue
              Sample.segments Sample.synonymMode (js "s4") 2 Sample.change)
    as (segments' & e' & Hres & _ & _ & _ & _ & Hsum).
  - reflexivity.
  - reflexivity.
  - simpl. lia.
  - exact synonymMode_in_modes.
  - discriminate.
  - exists segments'. split; [exact Hres|].
    by destruct (Hsum Sample.anagram eq_refl) as (_ & _ & Hin & _).
Defined.

(** * Further properties of the reconciler *)

Lemma filter_all {A} (P : A → Prop) `{∀ x, Decision (P x)} (l : list A) :
  Forall P l → filter P l = l.
Proof.
  induction 1 as [|x l Hx Hl IH]; [done|].
  by rewrite filter_cons_True, IH.
Qed.

Lemma filter_idempotent {A} (P : A → Prop) `{∀ x, Decision (P x)}
  (l : list A) :
  filter P (filter P l) = filter P l.
Proof.
  apply filter_all, Forall_forall. by intros x [? _]%list_elem_of_filter.
Qed.

Lemma filter_insert_dropped {A} (P : A → Prop) `{∀ x, Decision (P x)}
  (l : list A) i x y :
  l !! i = Some x → ¬ P x → ¬ P y → filter P (<[i := y]> l) = filter P l.
Proof.
  revert i. induction l as [|z l IH]; intros [|i] Hi Hx Hy; simplify_eq/=.
  - by rewrite !filter_cons_False.
  - rewrite !filter_cons. by rewrite (IH i).
Qed.

(** A result of a non-erase mode shows that the mode has a behavior. *)
Lemma addOrUpdateSegment_Some_behavior
  toUpperCase text segments M uuid start end_ segments' :
  behaviorKey M ≠ js "clear" →
  addOrUpdateSegment toUpperCase text segments M uuid start end_
  = Some segments' →
  ∀ t, is_Some (defaultResolution toUpperCase M t).
Proof.
  intros Hc Hres t. unfold addOrUpdateSegment, defaultResolution in *.
  rewrite decide_False in Hres by done.
  destruct (Config.segmentBehaviors toUpperCase !! behaviorKey M);
    [by eexists | done].
Qed.

Lemma retagged_retagged M r e :
  retagged M r (retagged M r e) = retagged M r e.
Proof. done. Qed.

(** X1. Selecting the same range again under the same mode changes nothing
    more: the second call returns the collection the first one returned,
    whatever identifier the host hands out the second time. *)
Theorem reconcile_idempotent
  toUpperCase text segments M uuid uuid' start end_ segments' :
  addOrUpdateSegment toUpperCase text segments M uuid start end_
  = Some segments' →
  addOrUpdateSegment toUpperCase text segments' M uuid' start end_
  = Some segments'.
Proof.
  intros Hres.
  destruct (decide (behaviorKey M = js "clear")) as [Hc|Hc].
  { rewrite erase_branch in * by done. injection Hres as <-.
    by rewrite filter_idempotent. }
  pose proof (addOrUpdateSegment_Some_behavior _ _ _ _ _ _ _ _ Hc Hres)
    as Hdef.
  destruct (list_find (λ s, seg_start s = start ∧ seg_end s = end_) segments)
    as [[i e]|] eqn:Hfind.
  - destruct (Hdef (seg_text e)) as [r Hr].
    rewrite (reselect_branch _ _ _ _ _ _ _ i e r) in Hres by done.
    injection Hres as <-.
    pose proof Hfind as (Hi & [Hs He] & Hfirst)%list_find_Some.
    rewrite (reselect_branch _ _ _ _ _ _ _ i (retagged M r e) r);
      [|done|done|].
    + by rewrite list_insert_insert_eq.
    + apply list_find_Some. split_and!; [|done..|].
      * apply list_lookup_insert_eq. by eapply lookup_lt_Some.
      * intros j y Hj Hlt. rewrite list_lookup_insert_ne in Hj by lia.
        eauto.
  - destruct (Hdef (slice text start (end_ + 1))) as [r Hr].
    rewrite (insert_branch _ _ _ _ _ _ _ r) in Hres by done.
    injection Hres as <-.
    set (kept := filter (λ s, seg_end s < start ∨ seg_start s > end_)
                   segments).
    set (new := {| seg_id := uuid; seg_start := start; seg_end := end_;
                   seg_text := slice text start (end_ + 1); seg_mode := M;
                   seg_resolution := r; seg_wordplayType := None |}).
    rewrite (reselect_branch _ _ _ _ _ _ _ (length kept) new r);
      [|done|done|].
    + rewrite list_insert_id; [done|]. by apply list_lookup_middle.
    + apply list_find_Some. split_and!; [|done..|].
      * by apply list_lookup_middle.
      * intros j y Hj Hlt. rewrite lookup_app_l in Hj by done.
        apply list_elem_of_lookup_2, list_elem_of_filter in Hj as [_ Hy].
        apply list_find_None in Hfind.
        by eapply Forall_forall in Hfind.
Qed.

(** X2. Erasing the range that has just been selected leaves what erasing it
    at once would have left: the segment the selection created or
    re-tagged goes, and so does everything the selection overlapped. *)
Theorem erase_after_selection
  toUpperCase text segments M Mclear uuid uuid' start end_ segments' :
  start ≤ end_ → behaviorKey Mclear = js "clear" →
  addOrUpdateSegment toUpperCase text segments M uuid start end_
  = Some segments' →
  addOrUpdateSegment toUpperCase text segments' Mclear uuid' start end_
  = addOrUpdateSegment toUpperCase text segments Mclear uuid' start end_.
Proof.
  intros Hle Hclear Hres. rewrite !erase_branch by done. f_equal.
  apply addOrUpdateSegment_cases in Hres
    as [->|[(i & e & r & Hfind & ->)|(r & ->)]].
  - apply filter_idempotent.
  - apply list_find_Some in Hfind as (Hi & [Hs He] & _).
    apply (filter_insert_dropped _ _ _ e); [done|lia|simpl; lia].
  - rewrite filter_app, filter_idempotent, filter_cons_False, filter_nil
      by (simpl; lia).
    by rewrite app_nil_r.
Qed.

(** X3. A selection that overlaps no segment removes none: the erase mode
    returns the collection as it is, and any other mode of the table
    appends the new segment to it. *)
Theorem selection_without_overlap
  toUpperCase text segments M uuid start end_ :
  start ≤ end_ → M ∈ Config.modes →
  Forall (λ s, isOverlapping (range s) (start, end_) = false) segments →
  ∃ segments',
    addOrUpdateSegment toUpperCase text segments M uuid start end_
    = Some segments'
    ∧ (behaviorKey M = js "clear" → segments' = segments)
    ∧ (behaviorKey M ≠ js "clear" →
       ∃ new, segments' = segments ++ [new]
              ∧ seg_id new = uuid ∧ range new = (start, end_)).
Proof.
  intros Hle HM Hfree.
  assert (filter (λ s, seg_end s < start ∨ seg_start s > end_) segments
          = segments) as Hkept.
  { apply filter_all. eapply Forall_impl; [exact Hfree|].
    intros s. by rewrite kept_iff_disjoint. }
  destruct (decide (behaviorKey M = js "clear")) as [Hc|Hc].
  { exists segments. rewrite erase_branch, Hkept by done. by split_and!. }
  destruct (defaultResolution_is_Some toUpperCase M
              (slice text start (end_ + 1)) HM) as [r Hr].
  eexists. split_and!.
  - rewrite (insert_branch _ _ _ _ _ _ _ r), Hkept; [done..|].
    apply list_find_None. eapply Forall_impl; [exact Hfree|].
    intros s Hs [Hst Hen]. apply isOverlapping_false in Hs.
    unfold range in Hs. simpl in Hs. lia.
  - intros Hclear. by destruct Hc.
  - intros _. by eexists.
Qed.

(** X4. The ids of the result are ids of the input, or the identifier the host
    handed out; when that identifier is not in use, distinct ids stay
    distinct in each of the three branches. *)
Theorem reconcile_ids
  toUpperCase text segments M uuid start end_ segments' :
  addOrUpdateSegment toUpperCase text segments M uuid start end_
  = Some segments' →
  (∀ id, id ∈ seg_id <$> segments' →
         id ∈ seg_id <$> segments ∨ id = uuid)
  ∧ (uuid ∉ seg_id <$> segments → NoDup (seg_id <$> segments) →
     NoDup (seg_id <$> segments')).
Proof.
  assert (seg_id <$> filter (λ s, seg_end s < start ∨ seg_start s > end_)
                       segments
          `sublist_of` seg_id <$> segments) as Hsub
    by apply fmap_sublist, sublist_filter.
  intros [->|[(i & e & r & Hfind & ->)|(r & ->)]]%addOrUpdateSegment_cases.
  - split.
    + intros id Hid. left. by eapply elem_of_sublist.
    + intros _ Hnodup. by eapply sublist_NoDup.
  - apply list_find_Some in Hfind as (Hi & _ & _).
    assert (seg_id <$> <[i := retagged M r e]> segments
            = seg_id <$> segments) as ->; [|by auto].
    rewrite list_fmap_insert. apply list_insert_id.
    by rewrite list_lookup_fmap, Hi.
  - rewrite fmap_app. split.
    + intros id [Hid|Hid]%elem_of_app.
      * left. by eapply elem_of_sublist.
      * right. simpl in Hid. by apply list_elem_of_singleton in Hid.
    + intros Hfresh Hnodup. apply NoDup_app. split_and!.
      * by eapply sublist_NoDup.
      * intros id Hid. simpl. rewrite list_elem_of_singleton.
        intros ->. apply Hfresh. by eapply elem_of_sublist.
      * simpl. apply NoDup_singleton.
Qed.

(** ** Well-formed collections *)

Lemma nonOverlapping_fmap (f : Segment → Segment) l :
  (∀ s, range (f s) = range s) →
  nonOverlapping l = true → nonOverlapping (f <$> l) = true.
Proof.
  intros Hf. rewrite !nonOverlapping_lookup. intros Hl i j a b.
  rewrite !list_lookup_fmap.
  destruct (l !! i) as [a'|] eqn:Ha, (l !! j) as [b'|] eqn:Hb; try done.
  intros [= <-] [= <-] Hij. rewrite !Hf. eauto.
Qed.

Lemma segmentsOk_reconcile
  toUpperCase text segments M uuid start end_ :
  segmentsOk text segments → M ∈ Config.modes →
  0 ≤ start → start ≤ end_ → end_ < Z.of_nat (length text) →
  ∃ segments',
    addOrUpdateSegment toUpperCase text segments M uuid start end_
    = Some segments'
    ∧ segmentsOk text segments'.
Proof.
  intros [Hinv Hok] HM H0 Hle Hlen.
  assert (segmentsOk text
            (filter (λ s, seg_end s < start ∨ seg_start s > end_) segments))
    as [Hkinv Hkok].
  { split; [by apply nonOverlapping_filter|].
    apply Forall_forall. intros s [_ Hs]%list_elem_of_filter.
    by eapply Forall_forall in Hok. }
  destruct (decide (behaviorKey M = js "clear")) as [Hc|Hc].
  { eexists. by rewrite erase_branch by done. }
  destruct (list_find (λ s, seg_start s = start ∧ seg_end s = end_) segments)
    as [[i e]|] eqn:Hfind.
  - destruct (defaultResolution_is_Some toUpperCase M (seg_text e) HM)
      as [r Hr].
    eexists. split; [by apply (reselect_branch _ _ _ _ _ _ _ i e r)|].
    apply list_find_Some in Hfind as (Hi & _ & _).
    split; [by eapply nonOverlapping_insert_same_range|].
    apply Forall_insert; [done|].
    eapply Forall_lookup_1 in Hok as (? & ? & ? & ? & _); [|exact Hi].
    by split_and!.
  - destruct (defaultResolution_is_Some toUpperCase M
                (slice text start (end_ + 1)) HM) as [r Hr].
    eexists. split; [by apply (insert_branch _ _ _ _ _ _ _ r)|].
    split.
    + apply nonOverlapping_snoc. split; [done|].
      apply Forall_forall. intros t [Ht _]%list_elem_of_filter.
      by apply kept_iff_disjoint.
    + apply Forall_app. split; [done|].
      apply Forall_singleton. by split_and!.
Qed.

(** X5. From a collection that is well formed for the clue text, a selection
    inside the text under a mode of the table gives a collection that is
    well formed again: the call does not throw, no two ranges overlap, and
    every segment still lies inside the text, carries the span of the text
    it covers and has a mode that is not the erase mode. *)
Theorem reconcile_preserves_segmentsOk
  toUpperCase text segments M uuid start end_ :
  segmentsOk text segments → M ∈ Config.modes →
  0 ≤ start → start ≤ end_ → end_ < Z.of_nat (length text) →
  ∃ segments',
    addOrUpdateSegment toUpperCase text segments M uuid start end_
    = Some segments'
    ∧ segmentsOk text segments'.
Proof. apply segmentsOk_reconcile. Qed.

(** ** Field edits, continued *)

Lemma segmentsOk_field_edits
  text segments id resolution wordplayType :
  segmentsOk text segments →
  segmentsOk text (updateResolution segments id resolution)
  ∧ segmentsOk text (updateWordplayType segments id wordplayType)
  ∧ seg_id <$> updateResolution segments id resolution
    = seg_id <$> segments
  ∧ seg_id <$> updateWordplayType segments id wordplayType
    = seg_id <$> segments.
Proof.
  intros [Hinv Hok]. unfold updateResolution, updateWordplayType.
  split_and!.
  - split.
    + apply nonOverlapping_fmap; [|done]. intros s. by case_decide.
    + apply Forall_fmap. eapply Forall_impl; [exact Hok|].
      intros s Hs. simpl. by case_decide.
  - split.
    + apply nonOverlapping_fmap; [|done]. intros s. by case_decide.
    + apply Forall_fmap. eapply Forall_impl; [exact Hok|].
      intros s Hs. simpl. by case_decide.
  - rewrite <- list_fmap_compose. apply list_fmap_ext.
    intros i s _. simpl. by case_decide.
  - rewrite <- list_fmap_compose. apply list_fmap_ext.
    intros i s _. simpl. by case_decide.
Qed.

(** X6. The two field edits keep a well-formed collection well formed and
    keep the ids, position by position. *)
Theorem field_edits_preserve_segmentsOk
  text segments id resolution wordplayType :
  segmentsOk text segments →
  segmentsOk text (updateResolution segments id resolution)
  ∧ segmentsOk text (updateWordplayType segments id wordplayType)
  ∧ seg_id <$> updateResolution segments id resolution
    = seg_id <$> segments
  ∧ seg_id <$> updateWordplayType segments id wordplayType
    = seg_id <$> segments.
Proof. apply segmentsOk_field_edits. Qed.

(** X7. Of two edits of the resolution of one id the later one wins, and an
    edit of the resolution and an edit of the wordplayType give the same
    collection in either order, for the same id or for two. *)
Theorem field_edits_compose segments id id' r r' w :
  updateResolution (updateResolution segments id r) id r'
  = updateResolution segments id r'
  ∧ updateResolution (updateWordplayType segments id w) id' r
    = updateWordplayType (updateResolution segments id' r) id w.
Proof.
  unfold updateResolution, updateWordplayType.
  split; rewrite <- !list_fmap_compose; apply list_fmap_ext;
    intros i s _; simpl; repeat case_decide; simpl in *; done.
Qed.

(** ** The summary, continued *)

Lemma join_arrow_nil (a : list jsstring) :
  join arrow a = [] ↔ a = [] ∨ a = [[]].
Proof.
  destruct a as [|x [|y a]]; simpl.
  - naive_solver.
  - split; [intros ->; by right | by intros [|[= ->]]].
  - split; [|by intros [|]]. intros H. apply app_eq_nil in H as [_ H].
    done.
Qed.

(** X8. In a collection without overlapping ranges whose segments have
    [start <= end], the summary does not depend on the order in which the
    segments were inserted. *)
Theorem summary_order_independent segments1 segments2 :
  segments1 ≡ₚ segments2 →
  nonOverlapping segments1 = true →
  Forall (λ s, seg_start s ≤ seg_end s) segments1 →
  summary segments1 = summary segments2.
Proof.
  intros Hperm Hinv Hwf. unfold summary. do 2 f_equal.
  apply (StronglySorted_unique_strong
           (λ a b, seg_start a ≤ seg_start b)).
  - intros x1 x2 H1 H2 Hle1 Hle2.
    rewrite sortBy_Permutation in H1, H2.
    apply list_elem_of_filter in H1 as [_ H1].
    apply list_elem_of_filter in H2 as [_ H2].
    rewrite <- Hperm in H2.
    pose proof (proj1 (Forall_forall _ _) Hwf _ H1) as Hw1.
    pose proof (proj1 (Forall_forall _ _) Hwf _ H2) as Hw2.
    apply list_elem_of_lookup in H1 as [i Hi].
    apply list_elem_of_lookup in H2 as [j Hj].
    destruct (decide (i = j)) as [->|Hne]; [congruence|exfalso].
    eapply nonOverlapping_lookup in Hinv; [|exact Hi|exact Hj|done].
    apply isOverlapping_false in Hinv. unfold range in Hinv.
    simpl in *. lia.
  - apply (sortBy_sorted seg_start).
  - apply (sortBy_sorted seg_start).
  - by rewrite !sortBy_Permutation, Hperm.
Qed.

(** X9. When the wordplay types of the segments are entries of the table
    [wordplayTypes], the summary is the empty string, and the line that
    shows it is left out, exactly when no segment has a resolution or a
    wordplayType. *)
Theorem summary_empty_iff segments :
  Forall (λ s, ∀ w, seg_wordplayType s = Some w → w ∈ Config.wordplayTypes)
    segments →
  summary segments = []
  ↔ Forall (λ s, seg_resolution s = [] ∧ seg_wordplayType s = None) segments.
Proof.
  intros Htable. unfold summary.
  assert (∀ s, s ∈ segments → summaryKeeps s → summaryLabel s ≠ [])
    as Hlabel.
  { intros s Hs Hk. unfold summaryLabel.
    destruct (seg_wordplayType s) as [w|] eqn:Hw.
    - eapply Forall_forall in Htable; [|exact Hs].
      specialize (Htable w Hw). unfold Config.wordplayTypes in Htable.
      rewrite !elem_of_cons, elem_of_nil in Htable.
      repeat (destruct Htable as [->|Htable]; [done|]). done.
    - destruct Hk as [?|[? ?]]; [done | congruence]. }
  split.
  - intros Hsum. apply join_arrow_nil in Hsum.
    assert (filter summaryKeeps segments = []) as Hnone.
    { destruct Hsum as [Hsum|Hsum].
      - apply fmap_nil_inv in Hsum. apply Permutation_nil_r.
        by rewrite <- (sortBy_Permutation
                         (λ a b, seg_start a - seg_start b)), Hsum.
      - exfalso.
        destruct (sortBy _ (filter summaryKeeps segments))
          as [|s [|? ?]] eqn:Hsort; try done.
        injection Hsum as Hs.
        assert (s ∈ filter summaryKeeps segments) as Hin.
        { rewrite <- (sortBy_Permutation
                        (λ a b, seg_start a - seg_start b)), Hsort.
          by left. }
        apply list_elem_of_filter in Hin as [Hk Hin].
        by apply (Hlabel s). }
    apply Forall_forall. intros s Hs.
    pose proof (filter_nil_not_elem_of summaryKeeps segments s Hnone) as Hn.
    unfold summaryKeeps in Hn.
    destruct (seg_wordplayType s) eqn:Hw.
    + exfalso. apply Hn; [|done]. right. by eexists.
    + split; [|done]. destruct (decide (seg_resolution s = [])); [done|].
      exfalso. apply Hn; [|done]. by left.
  - intros Hnone.
    assert (filter summaryKeeps segments = []) as ->; [|done].
    clear Htable Hlabel.
    induction Hnone as [|s l [Hr Hw] _ IH]; [done|].
    rewrite filter_cons_False; [done|].
    intros [?|[? Hsome]]; [done|]. by rewrite Hw in Hsome.
Qed.

(** * Further properties of the default resolutions *)

Lemma upperAscii_range c :
  (upperAscii c = c ∨ (65 ≤ upperAscii c ≤ 90 ∧ 97 ≤ c ≤ 122))%N.
Proof.
  unfold upperAscii.
  destruct (N.leb_spec 97 c), (N.leb_spec c 122); simpl; auto. right. lia.
Qed.

Lemma isWhiteSpace_letter c : (65 ≤ c ≤ 122)%N → isWhiteSpace c = false.
Proof.
  intros Hc. unfold isWhiteSpace.
  repeat (apply orb_false_iff; split);
    try (apply N.eqb_neq; lia);
    apply andb_false_iff; rewrite !N.leb_gt; lia.
Qed.

Lemma isWhiteSpace_upperAscii c :
  isWhiteSpace (upperAscii c) = isWhiteSpace c.
Proof.
  destruct (upperAscii_range c) as [Heq|[Hu Hc]]; [by rewrite Heq|].
  rewrite !isWhiteSpace_letter; [done|lia..].
Qed.

Lemma upperAscii_idempotent c : upperAscii (upperAscii c) = upperAscii c.
Proof.
  destruct (upperAscii_range c) as [Heq|[Hu Hc]]; [by rewrite !Heq|].
  generalize dependent (upperAscii c). intros u Hu. unfold upperAscii.
  destruct (N.leb_spec 97 u); [lia|done].
Qed.

Lemma isAscii_upperAscii c : isAscii c → isAscii (upperAscii c).
Proof.
  unfold isAscii. destruct (upperAscii_range c) as [Heq|[Hu Hc]]; lia.
Qed.

Lemma removeWhiteSpace_upperAscii t :
  removeWhiteSpace (upperAscii <$> t) = upperAscii <$> removeWhiteSpace t.
Proof.
  unfold removeWhiteSpace. induction t as [|c t IH]; [done|].
  rewrite fmap_cons, !filter_cons, isWhiteSpace_upperAscii, IH.
  by case_decide.
Qed.

Lemma wordInitialsFrom_sublist b t :
  wordInitialsFrom b t `sublist_of` removeWhiteSpace t.
Proof.
  unfold removeWhiteSpace. revert b.
  induction t as [|c t IH]; intros b; simpl; [done|].
  rewrite filter_cons. destruct (isWhiteSpace c) eqn:Hc.
  - rewrite decide_False by done. apply IH.
  - rewrite decide_True by done.
    destruct b; simpl; [by apply sublist_skip | by apply sublist_cons].
Qed.

Section AsciiHost.
Variable toUpperCase : jsstring → jsstring.
Hypothesis toUpperCase_ascii :
  ∀ t, Forall isAscii t → toUpperCase t = upperAscii <$> t.

(** X10. On a host whose [toUpperCase] is the ASCII one on ASCII text, and for
    an ASCII span: the fodder resolution has no white space, the white
    space of the span does not matter to it, and deriving it from itself
    gives it back. *)
Theorem fodder_resolution_stable (t : jsstring) :
  Forall isAscii t →
  let fodder := getDefaultResolution (Config.fodder toUpperCase) in
  Forall (λ c, isWhiteSpace c = false) (fodder t)
  ∧ fodder (removeWhiteSpace t) = fodder t
  ∧ fodder (fodder t) = fodder t.
Proof.
  intros Ht. simpl. rewrite !join_splitUnits.
  assert (∀ u, Forall isAscii u → Forall isAscii (removeWhiteSpace u))
    as Hrm.
  { intros u Hu. apply Forall_forall.
    intros c [_ Hc]%list_elem_of_filter. by eapply Forall_forall in Hu. }
  assert (removeWhiteSpace (removeWhiteSpace t) = removeWhiteSpace t)
    as Hidem by apply filter_idempotent.
  rewrite Hidem. rewrite !toUpperCase_ascii by auto.
  split_and!; [|done|].
  - apply Forall_fmap, Forall_forall.
    intros c [Hc _]%list_elem_of_filter. simpl.
    by rewrite isWhiteSpace_upperAscii.
  - rewrite removeWhiteSpace_upperAscii, Hidem.
    rewrite toUpperCase_ascii.
    + rewrite <- list_fmap_compose. apply list_fmap_ext.
      intros i c _. apply upperAscii_idempotent.
    + apply Forall_fmap. eapply Forall_impl; [by apply Hrm|].
      apply isAscii_upperAscii.
Qed.

(** X11. On the same host and for an ASCII span, the abbreviation is made of
    letters of the fodder resolution, in their order. *)
Theorem abbreviation_within_fodder (t : jsstring) :
  Forall isAscii t →
  getDefaultResolution (Config.abbreviation toUpperCase) t
  `sublist_of` getDefaultResolution (Config.fodder toUpperCase) t.
Proof.
  intros Ht. simpl.
  rewrite join_splitUnits, join_first_splitWhiteSpace.
  pose proof (wordInitialsFrom_sublist true t) as Hsub.
  assert (Forall isAscii (removeWhiteSpace t)) as Hrm.
  { apply Forall_forall.
    intros c [_ Hc]%list_elem_of_filter. by eapply Forall_forall in Ht. }
  rewrite !toUpperCase_ascii; [by apply fmap_sublist|done|].
  apply Forall_forall. intros c Hc.
  eapply Forall_forall in Hrm; [exact Hrm|]. by eapply elem_of_sublist.
Qed.
End AsciiHost.

(** ** The pieces of [split(/\s+/)] *)

Lemma splitRuns_head cur inRun t :
  ∃ w rest, splitRuns cur inRun t = (cur ++ w) :: rest.
Proof.
  revert cur inRun. induction t as [|c t IH]; intros cur inRun; simpl.
  - exists [], []. by rewrite app_nil_r.
  - destruct (isWhiteSpace c); [destruct inRun|].
    + apply IH.
    + exists [], (splitRuns [] true t). by rewrite app_nil_r.
    + destruct (IH (cur ++ [c]) false) as (w & rest & ->).
      exists (c :: w), rest. by rewrite <- app_assoc.
Qed.

Lemma splitRuns_no_whiteSpace cur inRun t :
  Forall (λ c, isWhiteSpace c = false) cur →
  Forall (Forall (λ c, isWhiteSpace c = false)) (splitRuns cur inRun t).
Proof.
  revert cur inRun. induction t as [|c t IH]; intros cur inRun Hcur; simpl.
  - by constructor.
  - destruct (isWhiteSpace c) eqn:Hc; [destruct inRun|].
    + by apply IH.
    + constructor; [done|]. by apply IH.
    + apply IH, Forall_app. split; [done|]. by apply Forall_singleton.
Qed.

Lemma splitRuns_concat cur inRun t :
  concat (splitRuns cur inRun t) = cur ++ removeWhiteSpace t.
Proof.
  unfold removeWhiteSpace. revert cur inRun.
  induction t as [|c t IH]; intros cur inRun; simpl.
  - done.
  - rewrite filter_cons. destruct (isWhiteSpace c) eqn:Hc;
      [destruct inRun|]; simpl.
    + by rewrite IH.
    + by rewrite IH.
    + by rewrite IH, <- app_assoc.
Qed.

Lemma splitRuns_empty_head t :
  splitRuns [] true t !! 0%nat = Some [] →
  length (splitRuns [] true t) = 1%nat.
Proof.
  induction t as [|c t IH]; simpl; [done|].
  destruct (isWhiteSpace c); [done|].
  destruct (splitRuns_head [c] false t) as (w & rest & ->). done.
Qed.

Lemma splitRuns_empty_pieces cur inRun t i :
  splitRuns cur inRun t !! i = Some [] →
  i = 0%nat ∨ S i = length (splitRuns cur inRun t).
Proof.
  revert cur inRun i.
  induction t as [|c t IH]; intros cur inRun i; simpl.
  - destruct i; [by left | done].
  - destruct (isWhiteSpace c); [destruct inRun|].
    + apply IH.
    + destruct i as [|i]; [by left|]. simpl. intros Hi. right.
      destruct (IH _ _ _ Hi) as [->|Hlast]; [|by rewrite Hlast].
      by rewrite splitRuns_empty_head.
    + apply IH.
Qed.

(** X12. The pieces that the abbreviation takes initials from hold no white
    space, together they are the text without its white space, and an
    empty piece, the one case the fallback of [word[0] || ""] serves, is
    the first or the last piece. *)
Theorem splitWhiteSpace_pieces (t : jsstring) :
  Forall (Forall (λ c, isWhiteSpace c = false)) (splitWhiteSpace t)
  ∧ concat (splitWhiteSpace t) = removeWhiteSpace t
  ∧ ∀ i, splitWhiteSpace t !! i = Some [] →
         i = 0%nat ∨ S i = length (splitWhiteSpace t).
Proof.
  unfold splitWhiteSpace. split_and!.
  - by apply splitRuns_no_whiteSpace.
  - by rewrite splitRuns_concat.
  - intros i. apply splitRuns_empty_pieces.
Qed.

(** * Arrays of styles *)









(** * The handlers of [ClueHighlighter] *)


(** X16. A key press sets the mode to a mode of the table whose key is the
    lower-cased key, and only when the focus is not in a text field and is
    in the component or on the body; under these conditions the key of a
    mode of the table, in either case, selects that very mode. *)
Theorem handleKeyDown_selects toLowerCase inField contained isBody key :
  (∀ m, Handlers.handleKeyDown toLowerCase inField contained isBody key
        = Some m →
        m ∈ Config.modes ∧ mode_key m = toLowerCase key
        ∧ inField = false ∧ contained || isBody = true)
  ∧ (∀ m, m ∈ Config.modes → toLowerCase key = mode_key m →
          inField = false → contained || isBody = true →
          Handlers.handleKeyDown toLowerCase inField contained isBody key
          = Some m).
Proof.
  unfold Handlers.handleKeyDown, find. split.
  - intros m. destruct inField; [done|].
    destruct (negb contained && negb isBody) eqn:Hscope; [done|].
    destruct (list_find (λ m, mode_key m = toLowerCase key)
                Config.modes) as [[i m']|] eqn:Hfind; [|done].
    intros [= ->]. apply list_find_Some in Hfind as (Hi & Hkey & _).
    split_and!; [by eapply list_elem_of_lookup_2 | done | done |].
    by destruct contained, isBody.
  - intros m Hm Hkey -> Hscope.
    assert (negb contained && negb isBody = false) as ->
      by (by destruct contained, isBody).
    rewrite Hkey. unfold Config.modes in Hm.
    rewrite !elem_of_cons, elem_of_nil in Hm.
    repeat (destruct Hm as [->|Hm]; [done|]). done.
Qed.

(** * The state of [App] *)

Lemma findIndex_NoDup clues i c :
  NoDup (clue_id <$> clues) → clues !! i = Some c →
  findIndex (λ c', Some (clue_id c') = Some (clue_id c)) clues = Z.of_nat i.
Proof.
  intros Hnodup Hi. apply (findIndex_found _ _ _ c).
  apply list_find_Some. split_and!; [done..|].
  intros j c' Hj Hlt [= Heq].
  assert (j = i); [|lia].
  eapply (NoDup_lookup _ j i (clue_id c)); [done|..];
    rewrite list_lookup_fmap.
  - rewrite Hj. simpl. congruence.
  - by rewrite Hi.
Qed.

Lemma at_of_nat {A} (a : list A) (i : nat) : at_ a (Z.of_nat i) = a !! i.
Proof. unfold at_. rewrite decide_True by lia. by rewrite Nat2Z.id. Qed.

(** X17. With distinct clue ids and the clue at position [i] selected, "Next"
    selects the clue after it and wraps from the last to the first, and
    "Previous" selects the clue before it and wraps from the first to the
    last; each undoes the other. *)
Theorem next_and_previous clues i c :
  NoDup (clue_id <$> clues) → clues !! i = Some c →
  let next := if decide (S i = length clues) then 0%nat else S i in
  let prev := if decide (i = 0%nat) then pred (length clues) else pred i in
  App.selectNextClue clues (Some (clue_id c)) = clue_id <$> clues !! next
  ∧ App.selectPrevClue clues (Some (clue_id c)) = clue_id <$> clues !! prev
  ∧ (∃ id, App.selectNextClue clues (Some (clue_id c)) = Some id
           ∧ App.selectPrevClue clues (Some id) = Some (clue_id c))
  ∧ (∃ id, App.selectPrevClue clues (Some (clue_id c)) = Some id
           ∧ App.selectNextClue clues (Some id) = Some (clue_id c)).
Proof.
  intros Hnodup Hi next prev.
  pose proof (lookup_lt_Some _ _ _ Hi) as Hlt.
  assert (∀ j d, clues !! j = Some d →
            App.selectNextClue clues (Some (clue_id d))
            = clue_id <$> clues !! (if decide (S j = length clues)
                                    then 0%nat else S j)) as Hnext.
  { intros j d Hj. pose proof (lookup_lt_Some _ _ _ Hj).
    unfold App.selectNextClue. rewrite (findIndex_NoDup _ j) by done.
    rewrite decide_False by lia. rewrite Z.rem_mod_nonneg by lia.
    case_decide.
    - replace (Z.of_nat j + 1) with (Z.of_nat (length clues)) by lia.
      rewrite Z_mod_same_full. by rewrite (at_of_nat _ 0).
    - rewrite Z.mod_small by lia.
      replace (Z.of_nat j + 1) with (Z.of_nat (S j)) by lia.
      by rewrite at_of_nat. }
  assert (∀ j d, clues !! j = Some d →
            App.selectPrevClue clues (Some (clue_id d))
            = clue_id <$> clues !! (if decide (j = 0%nat)
                                    then pred (length clues) else pred j))
    as Hprev.
  { intros j d Hj. pose proof (lookup_lt_Some _ _ _ Hj).
    unfold App.selectPrevClue. rewrite (findIndex_NoDup _ j) by done.
    rewrite decide_False by lia. rewrite Z.rem_mod_nonneg by lia.
    case_decide.
    - subst j. rewrite Z.mod_small by lia.
      replace (Z.of_nat 0 - 1 + Z.of_nat (length clues))
        with (Z.of_nat (pred (length clues))) by lia.
      by rewrite at_of_nat.
    - replace (Z.of_nat j - 1 + Z.of_nat (length clues))
        with (Z.of_nat (pred j) + 1 * Z.of_nat (length clues)) by lia.
      rewrite Z_mod_plus_full, Z.mod_small by lia.
      by rewrite at_of_nat. }
  split_and!; [by apply Hnext | by apply Hprev | |].
  - rewrite (Hnext i c Hi). fold next.
    destruct (lookup_lt_is_Some_2 clues next) as [d Hd];
      [unfold next; case_decide; lia|].
    exists (clue_id d). rewrite Hd. split; [done|].
    rewrite (Hprev next d Hd). unfold next.
    repeat case_decide; try lia.
    + replace (pred (length clues)) with i by lia. by rewrite Hi.
    + simpl. by rewrite Hi.
  - rewrite (Hprev i c Hi). fold prev.
    destruct (lookup_lt_is_Some_2 clues prev) as [d Hd];
      [unfold prev; case_decide; lia|].
    exists (clue_id d). rewrite Hd. split; [done|].
    rewrite (Hnext prev d Hd). unfold prev.
    repeat case_decide; try lia.
    all: first [ by (subst i; rewrite Hi)
               | by (replace (S (pred i)) with i by lia; rewrite Hi) ].
Qed.

Lemma findIndex_range {A} (P : A → Prop) `{∀ x, Decision (P x)} (l : list A) :
  -1 ≤ findIndex P l < Z.of_nat (length l).
Proof.
  unfold findIndex. destruct (list_find P l) as [[i x]|] eqn:Hfind; [|lia].
  apply list_find_Some in Hfind as (Hi%lookup_lt_Some & _). lia.
Qed.

Lemma navigation_selects_a_clue clues sel :
  clues ≠ [] →
  (∃ d, d ∈ clues ∧ App.selectNextClue clues sel = Some (clue_id d))
  ∧ (∃ d, d ∈ clues ∧ App.selectPrevClue clues sel = Some (clue_id d)).
Proof.
  intros Hne. assert (0 < Z.of_nat (length clues)) by (destruct clues; simpl; [done|lia]).
  pose proof (findIndex_range (λ c, Some (clue_id c) = sel) clues) as Hidx.
  unfold App.selectNextClue, App.selectPrevClue.
  rewrite !decide_False by lia.
  set (n := Z.of_nat (length clues)) in *.
  set (k := findIndex (λ c, Some (clue_id c) = sel) clues) in *.
  assert (∀ z, 0 ≤ z < n → ∃ d, d ∈ clues ∧ clue_id <$> at_ clues z = Some (clue_id d)) as Hat.
  { intros z Hz. unfold at_. rewrite decide_True by lia.
    destruct (lookup_lt_is_Some_2 clues (Z.to_nat z)) as [d Hd]; [lia|].
    exists d. rewrite Hd. split; [by eapply list_elem_of_lookup_2 | done]. }
  split; apply Hat.
  - rewrite Z.rem_mod_nonneg by lia. apply Z.mod_pos_bound. lia.
  - destruct (decide (k - 1 + n < 0)) as [Hneg|Hpos].
    + replace (k - 1 + n) with (-1) by lia. replace n with 1 by lia. done.
    + rewrite Z.rem_mod_nonneg by lia. apply Z.mod_pos_bound. lia.
Qed.

(** X18. "Next" and "Previous" throw on an empty list of clues and on no other:
    on a list that is not empty they select a clue of the list whatever the
    current selection is.  When no clue has the selected id, or none is
    selected, "Next" selects the first clue, and "Previous" the clue
    before the last one (the only clue, when there is one). *)
Theorem navigation_edges clues sel :
  (clues = [] →
   App.selectNextClue clues sel = None ∧ App.selectPrevClue clues sel = None)
  ∧ (clues ≠ [] →
     (∃ d, d ∈ clues ∧ App.selectNextClue clues sel = Some (clue_id d))
     ∧ (∃ d, d ∈ clues ∧ App.selectPrevClue clues sel = Some (clue_id d)))
  ∧ (clues ≠ [] → Forall (λ c, Some (clue_id c) ≠ sel) clues →
     App.selectNextClue clues sel = clue_id <$> clues !! 0%nat
     ∧ App.selectPrevClue clues sel
       = clue_id <$> clues !! (length clues - 2)%nat).
Proof.
  split_and!.
  - by intros ->.
  - apply navigation_selects_a_clue.
  - intros Hne Hnone.
    assert (0 < Z.of_nat (length clues))
      by (destruct clues; simpl; [done|lia]).
    unfold App.selectNextClue, App.selectPrevClue.
    rewrite !decide_False by lia.
    rewrite findIndex_absent by (by apply list_find_None). split.
    + rewrite Z.rem_0_l by lia. by rewrite (at_of_nat _ 0).
    + destruct (decide (length clues = 1%nat)) as [Hone|Hmore].
      * rewrite Hone. simpl. by rewrite (at_of_nat _ 0).
      * rewrite Z.rem_small by lia.
        replace (-1 - 1 + Z.of_nat (length clues))
          with (Z.of_nat (length clues - 2)) by lia.
        by rewrite at_of_nat.
Qed.

Lemma updateClueSegments_frame clues clueId segments :
  clueFrame <$> App.updateClueSegments clues clueId segments
  = clueFrame <$> clues.
Proof.
  unfold App.updateClueSegments. rewrite <- list_fmap_compose.
  apply list_fmap_ext. intros i c _. simpl. by case_decide.
Qed.

Lemma selectedClue_updated clues sel c segments :
  App.selectedClue clues sel = Some c →
  App.selectedClue (App.updateClueSegments clues (clue_id c) segments) sel
  = Some {| clue_id := clue_id c; clue_number := clue_number c;
            clue_direction := clue_direction c; clue_text := clue_text c;
            clue_segments := segments |}.
Proof.
  unfold App.selectedClue, find, App.updateClueSegments.
  destruct (list_find (λ c, Some (clue_id c) = sel) clues)
    as [[i c']|] eqn:Hfind; [|done].
  intros [= ->]. rewrite list_find_fmap.
  erewrite (list_find_ext _ (λ c, Some (clue_id c) = sel)).
  - rewrite Hfind. simpl. by rewrite decide_True.
  - intros d. simpl. by case_decide.
Qed.

(** X19. The segments that [ClueHighlighter] hands to [onSegmentsChange] are the
    segments it receives at the next render: the selected clue is the same
    clue with these segments.  Number, direction and text of every clue
    stay, and a clue with another id keeps its segments. *)
Theorem segments_change_reaches_selected clues sel c segments :
  App.selectedClue clues sel = Some c →
  App.selectedClue (App.updateClueSegments clues (clue_id c) segments) sel
  = Some {| clue_id := clue_id c; clue_number := clue_number c;
            clue_direction := clue_direction c; clue_text := clue_text c;
            clue_segments := segments |}
  ∧ clueFrame <$> App.updateClueSegments clues (clue_id c) segments
    = clueFrame <$> clues
  ∧ ∀ i d, clues !! i = Some d → clue_id d ≠ clue_id c →
      App.updateClueSegments clues (clue_id c) segments !! i = Some d.
Proof.
  intros Hsel. split_and!.
  - by apply selectedClue_updated.
  - apply updateClueSegments_frame.
  - intros i d Hd Hne. unfold App.updateClueSegments.
    rewrite list_lookup_fmap, Hd. simpl. by rewrite decide_False.
Qed.

(** X20. The two lists of the sidebar share out the clues: each clue is in one
    of them, as often as in [clues], and in the order of [clues]. *)
Theorem across_down_partition clues :
  App.acrossClues clues ++ App.downClues clues ≡ₚ clues
  ∧ App.acrossClues clues `sublist_of` clues
  ∧ App.downClues clues `sublist_of` clues
  ∧ ∀ c, c ∈ App.acrossClues clues → c ∉ App.downClues clues.
Proof.
  unfold App.acrossClues, App.downClues. split_and!.
  - rewrite (list_filter_iff (λ c, clue_direction c = down)
               (λ c, clue_direction c ≠ across)).
    + apply filter_app_complement.
    + intros c. destruct (clue_direction c); naive_solver.
  - apply sublist_filter.
  - apply sublist_filter.
  - intros c [Ha _]%list_elem_of_filter [Hd _]%list_elem_of_filter.
    congruence.
Qed.

(** * The invariant of the application *)




Section Invariant.
Variable toUpperCase : jsstring → jsstring.
Variable toLowerCase : jsstring → jsstring.






End Invariant.

(** * The controls of the row *)

(** X22. Under a segment that has a position and whose mode is a mode of the
    table other than the erase mode, the row renders exactly one control:
    the wordplay selector, holding the wordplayType of the segment, when
    the mode is the wordplay indicator, and otherwise the text input,
    holding the resolution of the segment and read-only exactly for the
    fodder mode.  Without a position it renders nothing. *)
Theorem row_entry_of_tagged_segment toUpperCase (s : Segment) :
  seg_mode s ∈ Config.modes → behaviorKey (seg_mode s) ≠ js "clear" →
  ResolutionRow.entry toUpperCase false s = Some None
  ∧ ∃ e,
      ResolutionRow.entry toUpperCase true s = Some (Some e)
      ∧ (behaviorKey (seg_mode s) = js "wordplayIndicator" →
         ResolutionRow.input e = None
         ∧ ResolutionRow.selector e = Some (seg_wordplayType s))
      ∧ (behaviorKey (seg_mode s) ≠ js "wordplayIndicator" →
         ResolutionRow.selector e = None
         ∧ ResolutionRow.input e
           = Some (seg_resolution s,
                   bool_decide (behaviorKey (seg_mode s) = js "fodder"))).
Proof.
  intros Hm Hc. split; [done|].
  unfold ResolutionRow.entry. cbn [negb].
  unfold Config.modes in Hm. rewrite !elem_of_cons, elem_of_nil in Hm.
  destruct Hm as [Hm|[Hm|[Hm|[Hm|[Hm|[Hm|[]]]]]]];
    rewrite Hm in *; try (by destruct Hc);
    (eexists; split; [reflexivity|]); by split.
Qed.

(** * The invariant of the controls *)


Section ControlsInvariant.
Variable toUpperCase : jsstring → jsstring.
Variable toLowerCase : jsstring → jsstring.







End ControlsInvariant.

(** * The further properties on the sample data *)

(** Selecting "ot t" (3-6) as fodder, twice. *)
Lemma reconcile_idempotent_witness :
  addOrUpdateSegment Sample.toUpperCase Sample.clue
    [Sample.change; Sample.mkSegment "s4" 3 6 Sample.fodderMode "OTT" None]
    Sample.fodderMode (js "s5") 3 6
  = Some [Sample.change;
          Sample.mkSegment "s4" 3 6 Sample.fodderMode "OTT" None].
Proof.
  apply (reconcile_idempotent Sample.toUpperCase Sample.clue
           Sample.segments Sample.fodderMode (js "s4") (js "s5") 3 6).
  reflexivity.
Defined.

(** Selecting "ot t" (3-6) as fodder, then erasing 3-6. *)
Lemma erase_after_selection_witness :
  addOrUpdateSegment Sample.toUpperCase Sample.clue
    [Sample.change; Sample.mkSegment "s4" 3 6 Sample.fodderMode "OTT" None]
    Sample.clearMode (js "s5") 3 6
  = Some [Sample.change].
Proof.
  rewrite (erase_after_selection Sample.toUpperCase Sample.clue
             Sample.segments Sample.fodderMode Sample.clearMode
             (js "s4") (js "s5") 3 6); [reflexivity | lia | reflexivity..].
Defined.

(** Selecting the blank between "A lot" and "to" (5-5). *)
Lemma selection_without_overlap_witness :
  ∃ segments',
    addOrUpdateSegment Sample.toUpperCase Sample.clue Sample.segments
      Sample.synonymMode (js "s4") 5 5 = Some segments'
    ∧ length segments' = 4%nat.
Proof.
  destruct (selection_without_overlap Sample.toUpperCase Sample.clue
              Sample.segments Sample.synonymMode (js "s4") 5 5)
    as (segments' & Hres & _ & Hnew).
  - lia.
  - exact synonymMode_in_modes.
  - repeat constructor.
  - exists segments'. split; [done|].
    destruct Hnew as (new & -> & _); [discriminate | reflexivity].
Defined.

Lemma reconcile_ids_witness :
  NoDup [js "s3"; js "s4"].
Proof.
  apply (reconcile_ids Sample.toUpperCase Sample.clue Sample.segments
           Sample.fodderMode (js "s4") 3 6
           [Sample.change;
            Sample.mkSegment "s4" 3 6 Sample.fodderMode "OTT" None]);
    [reflexivity | compute_done | compute_done].
Defined.

Lemma sample_segmentsOk : segmentsOk Sample.clue Sample.segments.
Proof.
  split; [reflexivity|].
  repeat (constructor;
          [split_and!; try reflexivity; try discriminate; try (simpl; lia);
           unfold Config.modes; set_solver|]).
  constructor.
Qed.

Lemma reconcile_preserves_segmentsOk_witness :
  ∃ segments',
    addOrUpdateSegment Sample.toUpperCase Sample.clue Sample.segments
      Sample.fodderMode (js "s4") 3 6 = Some segments'
    ∧ segmentsOk Sample.clue segments'.
Proof.
  apply (reconcile_preserves_segmentsOk Sample.toUpperCase Sample.clue
           Sample.segments Sample.fodderMode (js "s4") 3 6).
  - exact sample_segmentsOk.
  - exact fodderMode_in_modes.
  - lia.
  - lia.
  - simpl. lia.
Defined.

Lemma field_edits_preserve_segmentsOk_witness :
  segmentsOk Sample.clue
    (updateResolution Sample.segments (js "s2") (js "TO")).
Proof.
  apply (field_edits_preserve_segmentsOk Sample.clue Sample.segments
           (js "s2") (js "TO") None).
  exact sample_segmentsOk.
Defined.

Lemma field_edits_compose_witness :
  updateResolution (updateResolution Sample.segments (js "s2") (js "T"))
    (js "s2") (js "TO")
  = updateResolution Sample.segments (js "s2") (js "TO").
Proof.
  apply (field_edits_compose Sample.segments (js "s2") (js "s2")
           (js "T") (js "TO") None).
Defined.

Lemma summary_order_independent_witness :
  summary Sample.segments
  = summary [Sample.change; Sample.aLot; Sample.to_].
Proof.
  apply (summary_order_independent Sample.segments
           [Sample.change; Sample.aLot; Sample.to_]).
  - unfold Sample.segments.
    change [Sample.change; Sample.aLot; Sample.to_]
      with ([Sample.change] ++ [Sample.aLot; Sample.to_]).
    change [Sample.aLot; Sample.to_; Sample.change]
      with ([Sample.aLot; Sample.to_] ++ [Sample.change]).
    apply Permutation_app_comm.
  - reflexivity.
  - repeat constructor; simpl; lia.
Defined.

Lemma summary_empty_iff_witness :
  summary [Sample.mkSegment "s1" 0 4 Sample.synonymMode "" None] = [].
Proof.
  apply (summary_empty_iff
           [Sample.mkSegment "s1" 0 4 Sample.synonymMode "" None]).
  - repeat constructor. simpl. discriminate.
  - by repeat constructor.
Defined.

Lemma fodder_resolution_stable_witness :
  getDefaultResolution (Config.fodder Sample.toUpperCase)
    (getDefaultResolution (Config.fodder Sample.toUpperCase) (js "A Lot"))
  = getDefaultResolution (Config.fodder Sample.toUpperCase) (js "A Lot").
Proof.
  apply (fodder_resolution_stable Sample.toUpperCase (λ t _, eq_refl)
           (js "A Lot")).
  unfold isAscii. repeat (constructor; [done|]). constructor.
Defined.

Lemma abbreviation_within_fodder_witness :
  js "ALTC" `sublist_of` js "ALOTTOCHANGE".
Proof.
  apply (abbreviation_within_fodder Sample.toUpperCase (λ t _, eq_refl)
           (js "A Lot To Change")).
  unfold isAscii. repeat (constructor; [done|]). constructor.
Defined.



Lemma next_and_previous_witness :
  App.selectNextClue Sample2.clues (Some (js "5d")) = Some (js "1a")
  ∧ App.selectPrevClue Sample2.clues (Some (js "1a")) = Some (js "5d").
Proof.
  destruct (next_and_previous Sample2.clues 2 Sample2.downClue)
    as (Hnext & _ & _ & _); [compute_done | reflexivity |].
  destruct (next_and_previous Sample2.clues 0 Sample2.firstClue)
    as (_ & Hprev & _ & _); [compute_done | reflexivity |].
  split; [exact Hnext | exact Hprev].
Defined.

Lemma segments_change_reaches_selected_witness :
  clue_segments
    <$> App.selectedClue
          (App.updateClueSegments Sample2.clues (js "1a") Sample.segments)
          (Some (js "1a"))
  = Some Sample.segments.
Proof.
  change (js "1a") with (clue_id Sample2.firstClue).
  rewrite (proj1 (segments_change_reaches_selected Sample2.clues
                    (Some (clue_id Sample2.firstClue)) Sample2.firstClue
                    Sample.segments eq_refl)).
  reflexivity.
Defined.


(** Under "A lot", tagged as fodder, a read-only input holding "ALOT". *)
Lemma row_entry_of_tagged_segment_witness :
  ∃ e, ResolutionRow.entry Sample.toUpperCase true Sample.aLot
       = Some (Some e)
       ∧ ResolutionRow.input e = Some (js "ALOT", true).
Proof.
  destruct (row_entry_of_tagged_segment Sample.toUpperCase Sample.aLot)
    as (_ & e & He & _ & Hinput).
  - exact fodderMode_in_modes.
  - discriminate.
  - exists e. split; [exact He|]. apply Hinput. discriminate.
Defined.


(** The pieces of " a  lot ". *)
Lemma splitWhiteSpace_pieces_witness :
  concat (splitWhiteSpace (js " a  lot ")) = js "alot".
Proof. apply (splitWhiteSpace_pieces (js " a  lot ")). Defined.



(** The key "F" with the focus on the body. *)
Lemma handleKeyDown_selects_witness :
  Handlers.handleKeyDown Sample2.toLowerCase false false true (js "F")
  = Some Sample.fodderMode.
Proof.
  apply (handleKeyDown_selects Sample2.toLowerCase false false true (js "F"));
    [exact fodderMode_in_modes | reflexivity..].
Defined.

(** No clue has the id "zz". *)
Lemma navigation_edges_witness :
  App.selectNextClue Sample2.clues (Some (js "zz")) = Some (js "1a")
  ∧ App.selectPrevClue Sample2.clues (Some (js "zz")) = Some (js "4a").
Proof.
  apply (navigation_edges Sample2.clues (Some (js "zz"))).
  - discriminate.
  - repeat constructor; discriminate.
Defined.

Lemma across_down_partition_witness :
  App.acrossClues Sample2.clues ++ App.downClues Sample2.clues
  ≡ₚ Sample2.clues.
Proof. apply (across_down_partition Sample2.clues). Defined.
